(** * Company Lookup Dashboard: the client-side request layer

    A shallow embedding of the request, cache and retry layer of the
    dashboard's front end ([services/api.js], [services/constants.js]), of
    the search hook ([hooks/useCompanySearch.js]) and of the query validators
    ([utils/validators.js]), followed by the properties the specification
    states about them.

    Conventions.
    - JavaScript numbers that hold integers (HTTP statuses, millisecond
      clocks, delays) are [Z]; loop counters are [nat].
    - An [async] function is a state transformer over the state of the world
      it runs in; [await] is sequencing.  A rejected promise or a [throw] is
      the left summand of a sum.
    - [console.log] and friends are observational and left out. *)

From stdpp Require Import base gmap strings list pretty sorting.
From Stdlib Require Import ZArith Lia.

#[local] Open Scope Z_scope.
#[local] Set Warnings "-clear-no-such-hyp,-register-all".

(** ** [services/constants.js] *)

Module API_CONFIG.
Definition TIMEOUT : Z := 30000.
Definition RETRY_ATTEMPTS : nat := 3.
Definition RETRY_DELAY : Z := 1000.
End API_CONFIG.

Module HTTP_STATUS.
Definition OK : Z := 200.
Definition CREATED : Z := 201.
Definition NO_CONTENT : Z := 204.
Definition BAD_REQUEST : Z := 400.
Definition UNAUTHORIZED : Z := 401.
Definition FORBIDDEN : Z := 403.
Definition NOT_FOUND : Z := 404.
Definition CONFLICT : Z := 409.
Definition UNPROCESSABLE_ENTITY : Z := 422.
Definition TOO_MANY_REQUESTS : Z := 429.
Definition INTERNAL_SERVER_ERROR : Z := 500.
Definition BAD_GATEWAY : Z := 502.
Definition SERVICE_UNAVAILABLE : Z := 503.
Definition GATEWAY_TIMEOUT : Z := 504.
End HTTP_STATUS.

Module API_STATUS.
Definition SUCCESS : string := "success".
Definition ERROR : string := "error".
Definition WARNING : string := "warning".
Definition PARTIAL : string := "partial".
End API_STATUS.

(** [ERROR_TYPES]: the closed taxonomy of error kinds. *)
Inductive ERROR_TYPES : Set :=
| NETWORK_ERROR
| TIMEOUT_ERROR
| API_ERROR
| VALIDATION_ERROR
| NOT_FOUND
| RATE_LIMIT
| SERVER_ERROR
| UNKNOWN_ERROR.

#[global] Instance ERROR_TYPES_eq_dec : EqDecision ERROR_TYPES.
Proof. solve_decision. Defined.

Module CACHE_CONFIG.
Definition DEFAULT_TTL : Z := 5 * 60 * 1000.
Definition SEARCH_TTL : Z := 2 * 60 * 1000.
Definition COMPANY_TTL : Z := 10 * 60 * 1000.
Definition STOCK_TTL : Z := 1 * 60 * 1000.
Definition FILINGS_TTL : Z := 30 * 60 * 1000.
End CACHE_CONFIG.

Module SEARCH_CONFIG.
Definition MIN_QUERY_LENGTH : nat := 2.
Definition MAX_QUERY_LENGTH : nat := 100.
Definition DEBOUNCE_DELAY : Z := 300.
Definition MAX_SUGGESTIONS : nat := 5.
Definition MAX_RESULTS : nat := 10.
End SEARCH_CONFIG.

Module API_ENDPOINTS.
Definition SEARCH : string := "/search".
Definition COMPANY_LOOKUP : string := "/company/lookup".
Definition COMPANY_BY_TICKER : string := "/company".
Definition STOCK_QUOTE : string := "/stock".
Definition STOCK_BATCH : string := "/stock/batch".
Definition FILINGS : string := "/filings".
End API_ENDPOINTS.

(** ** JavaScript helpers *)

(** [x || fallback] for an optional string [x]: [undefined], [null] and the
    empty string are falsy. *)
Definition or_else (x : option string) (fallback : string) : string :=
  match x with
  | Some s => if decide (s = "") then fallback else s
  | None => fallback
  end.

(** ** [services/api.js]: failures and their classification *)

(** The body of an error response, as far as the client reads it:
    [data.message] and [data.errors]. *)
Record ResponseData := {
  d_message : option string;
  d_errors : option (list string);
}.

(** [error.response] of an axios failure: present exactly when the server
    answered.  [data] may be missing ([data?.message]). *)
Record ErrorResponse := {
  status : Z;
  data : option ResponseData;
  headers : gmap string string;
}.

(** The failure axios rejects with.  [code] is axios' own tag
    (["ECONNABORTED"] for an exceeded [timeout], ["ERR_NETWORK"], ...). *)
Record AxiosError := {
  ax_message : string;
  code : option string;
  response : option ErrorResponse;
}.

(** The classified error record built by [transformError]. *)
Record ErrorRecord := {
  type : ERROR_TYPES;
  message : string;
  errors : option (list string);
  retryAfter : option string;
  originalError : AxiosError;
}.

Definition data_message (r : ErrorResponse) : option string :=
  d ← data r; d_message d.

Definition data_errors (r : ErrorResponse) : option (list string) :=
  d ← data r; d_errors d.

Definition transformError (error : AxiosError) : ErrorRecord :=
  match response error with
  | None =>
      {| type := NETWORK_ERROR;
         message := "Network error. Please check your internet connection.";
         errors := None; retryAfter := None;
         originalError := error |}
  | Some r =>
      if decide (status r = HTTP_STATUS.BAD_REQUEST) then
        {| type := VALIDATION_ERROR;
           message := or_else (data_message r) "Invalid request parameters.";
           errors := Some (default [] (data_errors r));
           retryAfter := None;
           originalError := error |}
      else if decide (status r = HTTP_STATUS.NOT_FOUND) then
        {| type := NOT_FOUND;
           message := or_else (data_message r) "The requested resource was not found.";
           errors := None; retryAfter := None;
           originalError := error |}
      else if decide (status r = HTTP_STATUS.TOO_MANY_REQUESTS) then
        {| type := RATE_LIMIT;
           message := or_else (data_message r) "Too many requests. Please try again later.";
           errors := None;
           retryAfter := headers r !! "retry-after";
           originalError := error |}
      else if decide (status r = HTTP_STATUS.INTERNAL_SERVER_ERROR
                      ∨ status r = HTTP_STATUS.BAD_GATEWAY
                      ∨ status r = HTTP_STATUS.SERVICE_UNAVAILABLE
                      ∨ status r = HTTP_STATUS.GATEWAY_TIMEOUT) then
        {| type := SERVER_ERROR;
           message := or_else (data_message r) "Server error. Please try again later.";
           errors := None; retryAfter := None;
           originalError := error |}
      else
        {| type := API_ERROR;
           message := or_else (data_message r)
                        ("Request failed with status " +:+ pretty (status r) +:+ ".");
           errors := None; retryAfter := None;
           originalError := error |}
  end.

(** ** [services/api.js]: the retry loop *)

(** The runtime an [async] function runs in: a clock ([Date.now()]) and
    timers ([await new Promise(resolve => setTimeout(resolve, delay))]). *)
Class Runtime (W : Type) := {
  Date_now : W → Z;
  setTimeout : Z → W → W;
}.

(** How an [async] call completes: with a value, or by throwing.  The thrown
    value of [retryRequest] is [lastError], which is [undefined] ([None])
    when the loop body never ran. *)
Inductive Completion (A : Type) :=
| Returned (a : A)
| Threw (e : option ErrorRecord).
Arguments Returned {A} a.
Arguments Threw {A} e.

(** What [retryRequest] did, in order: each call of [requestFn] with the
    error it threw (if any), and each backoff wait with its delay. *)
Inductive Event :=
| Request (attempt : nat) (failure : option ErrorRecord)
| Backoff (attempt : nat) (delay : Z).

Section retry.
Context {W : Type} `{!Runtime W} {A : Type}.

(** A request function: it runs in the world and either throws a
    classified error or returns a response. *)
Definition RequestFn := W → (ErrorRecord + A) * W.

(** [error.originalError?.response?.status] *)
Definition original_status (error : ErrorRecord) : option Z :=
  status <$> response (originalError error).

(** The guard of "Don't retry on certain error types". *)
Definition no_retry (error : ErrorRecord) : bool :=
  bool_decide (type error = VALIDATION_ERROR)
  || bool_decide (type error = NOT_FOUND)
  || bool_decide (original_status error = Some HTTP_STATUS.BAD_REQUEST).

Definition backoff_delay (attempt : nat) : Z :=
  API_CONFIG.RETRY_DELAY * 2 ^ (Z.of_nat attempt - 1).

(** The [for (let attempt = 1; attempt <= maxRetries; attempt++)] loop,
    entered at [attempt] with [lastError]; [fuel] bounds the iterations
    left and [retryRequest] supplies [maxRetries] of it. *)
Fixpoint retryLoop (requestFn : RequestFn) (maxRetries : nat)
    (fuel attempt : nat) (lastError : option ErrorRecord) (w : W)
    : Completion A * W * list Event :=
  match fuel with
  | O => (Threw lastError, w, [])
  | S fuel' =>
      if decide (attempt ≤ maxRetries)%nat then
        match requestFn w with
        | (inr r, w1) => (Returned r, w1, [Request attempt None])
        | (inl error, w1) =>
            if no_retry error then
              (Threw (Some error), w1, [Request attempt (Some error)])
            else if decide (attempt < maxRetries)%nat then
              let delay := backoff_delay attempt in
              let '(c, w2, tr) :=
                retryLoop requestFn maxRetries fuel' (S attempt)
                          (Some error) (setTimeout delay w1) in
              (c, w2, Request attempt (Some error) :: Backoff attempt delay :: tr)
            else
              let '(c, w2, tr) :=
                retryLoop requestFn maxRetries fuel' (S attempt)
                          (Some error) w1 in
              (c, w2, Request attempt (Some error) :: tr)
        end
      else (Threw lastError, w, [])
  end.

Definition retryRequest (requestFn : RequestFn) (maxRetries : nat) (w : W)
    : Completion A * W * list Event :=
  retryLoop requestFn maxRetries maxRetries 1 None w.

End retry.

(** ** [services/api.js]: the response cache *)

(** An entry of the module-level [cache] (a [Map] from key to entry). *)
Record CacheEntry (V : Type) := {
  entry_data : V;
  timestamp : Z;
  entry_ttl : Z;
}.
Arguments entry_data {V} _.
Arguments timestamp {V} _.
Arguments entry_ttl {V} _.

(** A value interpolated into a cache key by a template literal. *)
Inductive ParamValue :=
| PStr (s : string)
| PNum (n : Z)
| PBool (b : bool)
| PList (l : list string).

Definition param_to_string (v : ParamValue) : string :=
  match v with
  | PStr s => s
  | PNum n => pretty n
  | PBool true => "true"
  | PBool false => "false"
  | PList l => String.concat "," l
  end.

(** [Object.keys(params).sort()]: the keys in ascending order. *)
Fixpoint insert_sorted (k : string) (ks : list string) : list string :=
  match ks with
  | [] => [k]
  | k' :: ks' => if String.leb k k' then k :: ks else k' :: insert_sorted k ks'
  end.

Definition sort_keys (ks : list string) : list string :=
  foldr insert_sorted [] ks.

(** [params[key]] for a [params] object given as its list of properties. *)
Fixpoint param_get (params : list (string * ParamValue)) (key : string)
    : string :=
  match params with
  | [] => "undefined"
  | (k, v) :: rest =>
      if decide (k = key) then param_to_string v else param_get rest key
  end.

Definition getCacheKey (url : string) (params : list (string * ParamValue))
    : string :=
  let paramString :=
    String.concat "&"
      (map (λ key, key +:+ "=" +:+ param_get params key)
           (sort_keys (map fst params))) in
  url +:+ (if decide (paramString = "") then "" else "?" +:+ paramString).

Section cache.
Context {V : Type}.

(** [entry && (Date.now() - entry.timestamp) < ttl], with [now] the value
    of [Date.now()]. *)
Definition isValidCacheEntry (entry : option (CacheEntry V)) (ttl now : Z)
    : bool :=
  match entry with
  | Some e => bool_decide (now - timestamp e < ttl)
  | None => false
  end.

Definition setCache (key : string) (data : V) (ttl now : Z)
    (cache : gmap string (CacheEntry V)) : gmap string (CacheEntry V) :=
  <[key := {| entry_data := data; timestamp := now; entry_ttl := ttl |}]> cache.

(** Returns [entry.data], or [null] ([None]) after deleting the key. *)
Definition getCache (key : string) (ttl now : Z)
    (cache : gmap string (CacheEntry V))
    : option V * gmap string (CacheEntry V) :=
  let entry := cache !! key in
  if isValidCacheEntry entry ttl now then (entry_data <$> entry, cache)
  else (None, delete key cache).

End cache.

(** ** [services/api.js]: the API facade *)

(** A result or suggestion item; opaque to this layer. *)
Definition Item : Type := string.

(** [data] of a response envelope, as far as the client reads it. *)
Record Payload := {
  p_results : option (list Item);
  p_suggestions : option (list Item);
}.

(** The envelope every endpoint answers with ([response.data]). *)
Record Envelope := {
  env_status : string;
  env_message : option string;
  env_data : option Payload;
}.

(** A fulfilled axios response. *)
Record Response := {
  resp_status : Z;
  resp_data : Envelope;
}.

(** The module-level [cache] holds envelopes. *)
Abbreviation Cache := (gmap string (CacheEntry Envelope)).

(** The options objects, a field being [None] when left [undefined]. *)
Record SearchOptions := {
  so_limit : option Z;
  so_useCache : option bool;
}.

Record LookupOptions := {
  lo_includeStock : option bool;
  lo_includeFilings : option bool;
  lo_filingsLimit : option Z;
  lo_useCache : option bool;
}.

Record TickerOptions := {
  to_useCache : option bool;
}.

Record QuoteOptions := {
  qo_detailed : option bool;
  qo_useCache : option bool;
}.

Record FilingsOptions := {
  fo_formTypes : option (list string);
  fo_limit : option Z;
  fo_useCache : option bool;
}.

(** [if (limit)]: a number is truthy unless it is zero. *)
Definition truthy_num (n : option Z) : bool :=
  match n with
  | Some z => negb (bool_decide (z = 0))
  | None => false
  end.

Section facade.
Context {W : Type} `{!Runtime W}.

(** [apiClient.get(url, { params })]: the HTTP client with its interceptors
    installed, so that every rejection carries a classified error record. *)
Variable apiClient_get :
  string → list (string * ParamValue) → W → (ErrorRecord + Response) * W.

(** The body the five cached read operations share, from "Check cache
    first" to [return result].  The cache is the operation's own view: what
    other tasks do to it while the request is awaited is not part of one
    operation. *)
Definition cached_read (cacheKey : string) (ttl : Z) (useCache : bool)
    (requestFn : W → (ErrorRecord + Response) * W) (w : W) (cache : Cache)
    : Completion Envelope * W * Cache :=
  let '(cached, cache1) :=
    if useCache then getCache cacheKey ttl (Date_now w) cache
    else (None, cache) in
  match cached with
  | Some hit => (Returned hit, w, cache1)
  | None =>
      let '(c, w1, _) := retryRequest requestFn API_CONFIG.RETRY_ATTEMPTS w in
      match c with
      | Threw e => (Threw e, w1, cache1)
      | Returned response =>
          let result := resp_data response in
          let cache2 :=
            if useCache && bool_decide (env_status result = "success")
            then setCache cacheKey result ttl (Date_now w1) cache1
            else cache1 in
          (Returned result, w1, cache2)
      end
  end.

Definition searchCompanies_params (query : string) (options : SearchOptions)
    : list (string * ParamValue) :=
  [("q", PStr query)]
  ++ (if truthy_num (so_limit options)
      then [("limit", PNum (default 0 (so_limit options)))] else []).

Definition searchCompanies_key (query : string) (options : SearchOptions)
    : string :=
  getCacheKey ("search:" +:+ query) (searchCompanies_params query options).

Definition searchCompanies (query : string) (options : SearchOptions)
    (w : W) (cache : Cache) : Completion Envelope * W * Cache :=
  let params := searchCompanies_params query options in
  cached_read (searchCompanies_key query options) CACHE_CONFIG.SEARCH_TTL
    (default true (so_useCache options))
    (apiClient_get API_ENDPOINTS.SEARCH params) w cache.

Definition lookupCompany_params (query : string) (options : LookupOptions)
    : list (string * ParamValue) :=
  [("q", PStr query);
   ("include_stock", PBool (default true (lo_includeStock options)));
   ("include_filings", PBool (default true (lo_includeFilings options)));
   ("filings_limit", PNum (default 5 (lo_filingsLimit options)))].

Definition lookupCompany_key (query : string) (options : LookupOptions)
    : string :=
  getCacheKey ("lookup:" +:+ query) (lookupCompany_params query options).

Definition lookupCompany (query : string) (options : LookupOptions)
    (w : W) (cache : Cache) : Completion Envelope * W * Cache :=
  let params := lookupCompany_params query options in
  cached_read (lookupCompany_key query options) CACHE_CONFIG.COMPANY_TTL
    (default true (lo_useCache options))
    (apiClient_get API_ENDPOINTS.COMPANY_LOOKUP params) w cache.

Definition getCompanyByTicker_key (ticker : string) : string :=
  getCacheKey ("company:" +:+ ticker) [].

Definition getCompanyByTicker (ticker : string) (options : TickerOptions)
    (w : W) (cache : Cache) : Completion Envelope * W * Cache :=
  let url := API_ENDPOINTS.COMPANY_BY_TICKER +:+ "/" +:+ ticker in
  cached_read (getCompanyByTicker_key ticker) CACHE_CONFIG.COMPANY_TTL
    (default true (to_useCache options))
    (apiClient_get url []) w cache.

Definition getStockQuote_params (options : QuoteOptions)
    : list (string * ParamValue) :=
  [("detailed", PBool (default false (qo_detailed options)))].

Definition getStockQuote_key (ticker : string) (options : QuoteOptions)
    : string :=
  getCacheKey ("stock:" +:+ ticker) (getStockQuote_params options).

Definition getStockQuote (ticker : string) (options : QuoteOptions)
    (w : W) (cache : Cache) : Completion Envelope * W * Cache :=
  let url := API_ENDPOINTS.STOCK_QUOTE +:+ "/" +:+ ticker in
  let params := getStockQuote_params options in
  cached_read (getStockQuote_key ticker options) CACHE_CONFIG.STOCK_TTL
    (default true (qo_useCache options))
    (apiClient_get url params) w cache.

(** [formTypes && formTypes.length > 0] *)
Definition getCompanyFilings_params (options : FilingsOptions)
    : list (string * ParamValue) :=
  [("limit", PNum (default 10 (fo_limit options)))]
  ++ match fo_formTypes options with
     | Some (f :: fs) => [("form_types", PList (f :: fs))]
     | _ => []
     end.

Definition getCompanyFilings_key (cik : string) (options : FilingsOptions)
    : string :=
  getCacheKey ("filings:" +:+ cik) (getCompanyFilings_params options).

Definition getCompanyFilings (cik : string) (options : FilingsOptions)
    (w : W) (cache : Cache) : Completion Envelope * W * Cache :=
  let url := API_ENDPOINTS.FILINGS +:+ "/" +:+ cik in
  let params := getCompanyFilings_params options in
  cached_read (getCompanyFilings_key cik options) CACHE_CONFIG.FILINGS_TTL
    (default true (fo_useCache options))
    (apiClient_get url params) w cache.

(** The cached read operations of the facade, as calls. *)
Inductive ReadOp :=
| SearchCompanies (query : string) (options : SearchOptions)
| LookupCompany (query : string) (options : LookupOptions)
| GetCompanyByTicker (ticker : string) (options : TickerOptions)
| GetStockQuote (ticker : string) (options : QuoteOptions)
| GetCompanyFilings (cik : string) (options : FilingsOptions).

Definition run_op (op : ReadOp) (w : W) (cache : Cache)
    : Completion Envelope * W * Cache :=
  match op with
  | SearchCompanies q o => searchCompanies q o w cache
  | LookupCompany q o => lookupCompany q o w cache
  | GetCompanyByTicker t o => getCompanyByTicker t o w cache
  | GetStockQuote t o => getStockQuote t o w cache
  | GetCompanyFilings c o => getCompanyFilings c o w cache
  end.

(** The key an operation reads and writes the cache under. *)
Definition op_key (op : ReadOp) : string :=
  match op with
  | SearchCompanies q o => searchCompanies_key q o
  | LookupCompany q o => lookupCompany_key q o
  | GetCompanyByTicker t _ => getCompanyByTicker_key t
  | GetStockQuote t o => getStockQuote_key t o
  | GetCompanyFilings c o => getCompanyFilings_key c o
  end.

Definition op_ttl (op : ReadOp) : Z :=
  match op with
  | SearchCompanies _ _ => CACHE_CONFIG.SEARCH_TTL
  | LookupCompany _ _ | GetCompanyByTicker _ _ => CACHE_CONFIG.COMPANY_TTL
  | GetStockQuote _ _ => CACHE_CONFIG.STOCK_TTL
  | GetCompanyFilings _ _ => CACHE_CONFIG.FILINGS_TTL
  end.

End facade.

(** ** [services/api.js]: the recent-search store *)

Module STORAGE_KEYS.
Definition RECENT_SEARCHES : string := "company_lookup_recent_searches".
Definition USER_PREFERENCES : string := "company_lookup_user_preferences".
Definition CACHE_PREFIX : string := "company_lookup_cache_".
End STORAGE_KEYS.

(** A value read back by [JSON.parse].  [saveRecentSearch] only tells
    strings and arrays from the rest, so every other JSON value ([null],
    numbers, booleans, objects) is kept as its text. *)
Inductive JSValue :=
| JStr (s : string)
| JArr (items : list JSValue)
| JOther (text : string).

(** A string held by [localStorage], seen through [JSON.parse]: either the
    text of a JSON value, or a text [JSON.parse] rejects (the empty string
    among them).  [JSON.stringify] writes the first form, and
    [JSON.parse (JSON.stringify v)] is [v] for the arrays of strings written
    here.  [localStorage.getItem] and [setItem] are taken to succeed: a
    refused or full storage is not modelled. *)
Inductive Stored :=
| Json (v : JSValue)
| Garbage (raw : string).

Abbreviation Storage := (gmap string Stored).

Inductive JSException :=
| SyntaxError
| TypeError.

Definition JSON_parse (stored : Stored) : JSException + JSValue :=
  match stored with
  | Json v => inr v
  | Garbage _ => inl SyntaxError
  end.

Definition JSON_stringify (v : JSValue) : Stored := Json v.

(** [stored ? ... : ...]: a string is truthy unless it is empty. *)
Definition truthy_stored (stored : Stored) : bool :=
  match stored with
  | Garbage raw => negb (bool_decide (raw = ""))
  | Json _ => true
  end.

(** The [try] block of [getRecentSearches]. *)
Definition getRecentSearches_try (localStorage : Storage)
    : JSException + JSValue :=
  match localStorage !! STORAGE_KEYS.RECENT_SEARCHES with
  | Some stored =>
      if truthy_stored stored then JSON_parse stored else inr (JArr [])
  | None => inr (JArr [])
  end.

Definition getRecentSearches (localStorage : Storage) : JSValue :=
  match getRecentSearches_try localStorage with
  | inr v => v
  | inl _ => JArr []
  end.

(** [q !== query] for the string [query]. *)
Definition strict_ne (q : JSValue) (query : string) : bool :=
  match q with
  | JStr s => negb (bool_decide (s = query))
  | _ => true
  end.

(** [recent.filter(...)]: only an array has a [filter] method. *)
Definition js_filter (recent : JSValue) (f : JSValue → bool)
    : JSException + list JSValue :=
  match recent with
  | JArr items => inr (List.filter f items)
  | _ => inl TypeError
  end.

(** The [try] block of [saveRecentSearch]. *)
Definition saveRecentSearch_try (query : string) (localStorage : Storage)
    : JSException + Storage :=
  let recent := getRecentSearches localStorage in
  match js_filter recent (λ q, strict_ne q query) with
  | inl e => inl e
  | inr kept =>
      let updated := take 10 (JStr query :: kept) in
      inr (<[STORAGE_KEYS.RECENT_SEARCHES := JSON_stringify (JArr updated)]>
             localStorage)
  end.

Definition saveRecentSearch (query : string) (localStorage : Storage)
    : Storage :=
  match saveRecentSearch_try query localStorage with
  | inr localStorage' => localStorage'
  | inl _ => localStorage
  end.

Definition clearRecentSearches (localStorage : Storage) : Storage :=
  delete STORAGE_KEYS.RECENT_SEARCHES localStorage.

(** ** [hooks/useCompanySearch.js] *)

(** The state the hook keeps with [useState]. *)
Record SearchState := {
  query : string;
  results : list Item;
  suggestions : list Item;
  loading : bool;
  error : option string;
  hasSearched : bool;
}.

Definition initialSearchState : SearchState :=
  {| query := ""; results := []; suggestions := []; loading := false;
     error := None; hasSearched := false |}.

Definition setResults (v : list Item) (st : SearchState) : SearchState :=
  {| query := query st; results := v; suggestions := suggestions st;
     loading := loading st; error := error st; hasSearched := hasSearched st |}.

Definition setLoading (v : bool) (st : SearchState) : SearchState :=
  {| query := query st; results := results st; suggestions := suggestions st;
     loading := v; error := error st; hasSearched := hasSearched st |}.

Definition setError (v : option string) (st : SearchState) : SearchState :=
  {| query := query st; results := results st; suggestions := suggestions st;
     loading := loading st; error := v; hasSearched := hasSearched st |}.

Definition setHasSearched (v : bool) (st : SearchState) : SearchState :=
  {| query := query st; results := results st; suggestions := suggestions st;
     loading := loading st; error := error st; hasSearched := v |}.

Section useCompanySearch.
Variable minQueryLength : nat.

(** [performSearch] up to its [await]: either it returns at once (the query
    is empty or too short, [false]), or it sets the loading state and the
    call to [apiService.searchCompanies] is in flight ([true]). *)
Definition performSearch_begin (searchQuery : string) (st : SearchState)
    : SearchState * bool :=
  if bool_decide (searchQuery = "")
     || bool_decide (String.length searchQuery < minQueryLength)%nat
  then (setHasSearched false (setError None (setResults [] st)), false)
  else (setError None (setLoading true st), true).

(** [response.data?.results || []] *)
Definition searchResults_of (response : Envelope) : list Item :=
  default [] (env_data response ≫= p_results).

(** [performSearch] from the moment the awaited call settles with
    [outcome].  Nothing identifies the call that settled: the state is
    written with whatever arrived. *)
Definition performSearch_settle (searchQuery : string)
    (outcome : Completion Envelope) (st : SearchState)
    (localStorage : Storage) : SearchState * Storage :=
  let '(st1, localStorage1) :=
    match outcome with
    | Returned response =>
        if bool_decide (env_status response = "success") then
          let searchResults := searchResults_of response in
          let st' := setHasSearched true (setResults searchResults st) in
          if bool_decide (0 < length searchResults)%nat
          then (st', saveRecentSearch searchQuery localStorage)
          else (st', localStorage)
        else
          (setHasSearched true (setResults []
             (setError (Some (or_else (env_message response) "Search failed")) st)),
           localStorage)
    | Threw (Some err) =>
        (setHasSearched true (setResults []
           (setError (Some (or_else (Some (message err))
                                    "Search failed. Please try again.")) st)),
         localStorage)
    | Threw None =>
        (* [err.message] of [undefined] throws out of the [catch] block *)
        (st, localStorage)
    end in
  (setLoading false st1, localStorage1).

(** The auto-search effect, run when the debounced query changes. *)
Definition autoSearch_effect (autoSearch : bool) (debouncedQuery : string)
    (st : SearchState) : SearchState * bool :=
  if autoSearch && negb (bool_decide (debouncedQuery = ""))
  then performSearch_begin debouncedQuery st
  else (st, false).

(** What happens to one mounted hook, in the order the event loop runs it:
    a search is issued, or the call of an earlier search settles. *)
Inductive HookEvent :=
| Issued (searchQuery : string)
| Settled (searchQuery : string) (outcome : Completion Envelope).

Definition hook_step (s : SearchState * Storage) (ev : HookEvent)
    : SearchState * Storage :=
  match ev with
  | Issued q => ((performSearch_begin q s.1).1, s.2)
  | Settled q outcome => performSearch_settle q outcome s.1 s.2
  end.

Definition hook_run (evs : list HookEvent) (s : SearchState * Storage)
    : SearchState * Storage :=
  foldl hook_step s evs.

End useCompanySearch.

(** ** [utils/validators.js] *)

(** The validators look inside their strings, so a string is here the list
    of its UTF-16 code units; [length] is JavaScript's [.length]. *)
Definition JSString : Type := list N.

Definition code_units (s : string) : JSString :=
  Ascii.N_of_ascii <$> String.list_ascii_of_string s.

(** White space and line terminators: what [String.prototype.trim] strips
    and what [\s] matches. *)
Definition is_whitespace (c : N) : bool :=
  (bool_decide (0x09 ≤ c ≤ 0x0D)
   || bool_decide (c = 0x20) || bool_decide (c = 0xA0)
   || bool_decide (c = 0x1680)
   || bool_decide (0x2000 ≤ c ≤ 0x200A)
   || bool_decide (c = 0x2028) || bool_decide (c = 0x2029)
   || bool_decide (c = 0x202F) || bool_decide (c = 0x205F)
   || bool_decide (c = 0x3000) || bool_decide (c = 0xFEFF))%N.

Fixpoint trimStart (s : JSString) : JSString :=
  match s with
  | c :: s' => if is_whitespace c then trimStart s' else s
  | [] => []
  end.

Definition trimEnd (s : JSString) : JSString :=
  reverse (trimStart (reverse s)).

Definition trim (s : JSString) : JSString := trimEnd (trimStart s).

(** The regular expressions of the validators, matched by derivatives. *)
Inductive regex :=
| Void
| Eps
| Class (p : N → bool)
| Cat (r1 r2 : regex)
| Alt (r1 r2 : regex)
| Star (r : regex).

Fixpoint nullable (r : regex) : bool :=
  match r with
  | Void => false
  | Eps => true
  | Class _ => false
  | Cat r1 r2 => nullable r1 && nullable r2
  | Alt r1 r2 => nullable r1 || nullable r2
  | Star _ => true
  end.

Fixpoint deriv (c : N) (r : regex) : regex :=
  match r with
  | Void => Void
  | Eps => Void
  | Class p => if p c then Eps else Void
  | Cat r1 r2 =>
      if nullable r1 then Alt (Cat (deriv c r1) r2) (deriv c r2)
      else Cat (deriv c r1) r2
  | Alt r1 r2 => Alt (deriv c r1) (deriv c r2)
  | Star r1 => Cat (deriv c r1) (Star r1)
  end.

Definition matches (r : regex) (s : JSString) : bool :=
  nullable (foldl (λ r c, deriv c r) r s).

Definition any_char : regex := Class (λ _, true).

(** [pattern.test(s)]: the pattern matches somewhere in [s]. *)
Definition regex_test (r : regex) (s : JSString) : bool :=
  matches (Cat (Star any_char) (Cat r (Star any_char))) s.

(** A character of a pattern under the [i] flag: ASCII letters match in
    either case, and only ASCII letters match them. *)
Definition to_upper (c : N) : N :=
  (if bool_decide (0x61 ≤ c ≤ 0x7A) then c - 0x20 else c)%N.

Definition chr_i (c : N) : regex :=
  Class (λ x, bool_decide (to_upper x = to_upper c)).

Definition lit_i (s : string) : regex :=
  foldr (λ c r, Cat (chr_i c) r) Eps (code_units s).

(** [\w] *)
Definition is_word (c : N) : bool :=
  (bool_decide (0x30 ≤ c ≤ 0x39) || bool_decide (0x41 ≤ c ≤ 0x5A)
   || bool_decide (0x61 ≤ c ≤ 0x7A) || bool_decide (c = 0x5F))%N.

Definition not_gt : regex := Class (λ x, negb (bool_decide (x = 0x3E%N))).

(** [/<script[^>]*>/i], [/javascript:/i], [/on\w+\s*=/i],
    [/<iframe[^>]*>/i] *)
Definition suspiciousPatterns : list regex :=
  [ Cat (lit_i "<script") (Cat (Star not_gt) (chr_i 0x3E));
    lit_i "javascript:";
    Cat (lit_i "on")
        (Cat (Class is_word)
             (Cat (Star (Class is_word))
                  (Cat (Star (Class is_whitespace)) (chr_i 0x3D))));
    Cat (lit_i "<iframe") (Cat (Star not_gt) (chr_i 0x3E)) ].

(** [{ isValid: true, value }] or [{ isValid: false, error }] *)
Inductive Validation :=
| Valid (value : JSString)
| Invalid (error : string).

Definition isValid (v : Validation) : bool :=
  match v with
  | Valid _ => true
  | Invalid _ => false
  end.

Definition validateSearchQuery (query : JSString) : Validation :=
  if bool_decide (query = []) then Invalid "Search query is required"
  else
    let queryStr := trim query in
    if bool_decide (length queryStr < SEARCH_CONFIG.MIN_QUERY_LENGTH)%nat then
      Invalid ("Query must be at least "
               +:+ pretty SEARCH_CONFIG.MIN_QUERY_LENGTH +:+ " characters")
    else if bool_decide (SEARCH_CONFIG.MAX_QUERY_LENGTH < length queryStr)%nat then
      Invalid ("Query cannot exceed "
               +:+ pretty SEARCH_CONFIG.MAX_QUERY_LENGTH +:+ " characters")
    else if existsb (λ pattern, regex_test pattern queryStr) suspiciousPatterns
    then Invalid "Query contains invalid characters"
    else Valid queryStr.

(** [.replace(/\s+/g, ' ')]: every run of white space becomes one space;
    [in_run] tells that the previous code unit was white space. *)
Fixpoint collapse_from (in_run : bool) (s : JSString) : JSString :=
  match s with
  | [] => []
  | c :: s' =>
      if is_whitespace c then
        if in_run then collapse_from true s'
        else 0x20%N :: collapse_from true s'
      else c :: collapse_from false s'
  end.

Definition collapse_whitespace (s : JSString) : JSString :=
  collapse_from false s.

(** The characters the two middle [replace] calls delete: angle brackets
    (potential HTML tags), then single and double quotes. *)
Definition is_angle (c : N) : bool :=
  bool_decide (c = 0x3C%N) || bool_decide (c = 0x3E%N).

Definition is_quote (c : N) : bool :=
  bool_decide (c = 0x27%N) || bool_decide (c = 0x22%N).

Definition sanitizeString (str : JSString) : JSString :=
  if bool_decide (str = []) then []
  else
    collapse_whitespace
      (List.filter (λ c, negb (is_quote c))
         (List.filter (λ c, negb (is_angle c)) (trim str))).

Definition validateAndSanitizeSearch (query : JSString) : Validation :=
  match validateSearchQuery query with
  | Invalid e => Invalid e
  | Valid value => Valid (sanitizeString value)
  end.

(** ** [services/api.js]: the rest of the facade *)

(** [useCache] of an operation's options, [true] unless the caller says
    otherwise. *)
Definition op_useCache (op : ReadOp) : bool :=
  match op with
  | SearchCompanies _ o => default true (so_useCache o)
  | LookupCompany _ o => default true (lo_useCache o)
  | GetCompanyByTicker _ o => default true (to_useCache o)
  | GetStockQuote _ o => default true (qo_useCache o)
  | GetCompanyFilings _ o => default true (fo_useCache o)
  end.

(** ** [hooks/useDebounce.js] *)

(** One mounted [useDebounce]: the state it keeps, the dependencies
    [[value, delay]] its effect last ran with, and the timeout that effect
    left pending, with the value it will set and the time it is due.
    [fired] records, in order, the values timeouts have set. *)
Record Debounce := {
  debouncedValue : string;
  deps : string * Z;
  handler : option (string * Z);
  fired : list string;
}.

(** The first render at time [now]: [useState(value)], then the effect. *)
Definition useDebounce_mount (value : string) (delay now : Z) : Debounce :=
  {| debouncedValue := value; deps := (value, delay);
     handler := Some (value, now + delay); fired := [] |}.

(** A later render at time [now]: when [value] or [delay] changed, the
    effect's cleanup clears the pending timeout and the effect arms a new
    one; otherwise the effect does not run. *)
Definition useDebounce_render (value : string) (delay now : Z)
    (st : Debounce) : Debounce :=
  if decide ((value, delay) = deps st) then st
  else {| debouncedValue := debouncedValue st; deps := (value, delay);
          handler := Some (value, now + delay); fired := fired st |}.

(** The event loop at time [now]: a pending timeout that is due runs
    [setDebouncedValue]. *)
Definition timers_run (now : Z) (st : Debounce) : Debounce :=
  match handler st with
  | Some (value, due) =>
      if decide (due ≤ now) then
        {| debouncedValue := value; deps := deps st; handler := None;
           fired := fired st ++ [value] |}
      else st
  | None => st
  end.

(** Renders with new values at the given times, in order. *)
Definition keystrokes (delay : Z) (burst : list (Z * string)) (st : Debounce)
    : Debounce :=
  foldl (λ st tv, useDebounce_render tv.2 delay tv.1 (timers_run tv.1 st))
        st burst.

(** ** [utils/validators.js]: more validators *)

(** [\d] *)
Definition is_digit (c : N) : bool := bool_decide (0x30 ≤ c ≤ 0x39)%N.

(** [s.padStart(n, pad)] for a one-unit [pad]. *)
Definition padStart (n : nat) (pad : N) (s : JSString) : JSString :=
  replicate (n - length s) pad ++ s.

Definition validateCIK (cik : JSString) : Validation :=
  if bool_decide (cik = []) then Invalid "CIK is required"
  else
    let cikStr := trim cik in
    let digitsOnly := List.filter is_digit cikStr in
    if bool_decide (length digitsOnly = 0%nat) then
      Invalid "CIK must contain digits"
    else if bool_decide (10 < length digitsOnly)%nat then
      Invalid "CIK cannot be more than 10 digits"
    else Valid (padStart 10 0x30 digitsOnly).

(** [combineValidators(...validators)]: the first failing result, or the
    value as it was given. *)
Fixpoint combineValidators (validators : list (JSString → Validation))
    (value : JSString) : Validation :=
  match validators with
  | [] => Valid value
  | validator :: rest =>
      match validator value with
      | Invalid error => Invalid error
      | Valid _ => combineValidators rest value
      end
  end.

(** The result of [validateArray]: the validated items, or one message. *)
Inductive ArrayValidation :=
| ValidItems (value : list JSString)
| InvalidItems (error : string).

(** The [for] loop of [validateArray] from index [i] on: the validated
    items and the error messages, in order. *)
Fixpoint validateArray_loop (validator : JSString → Validation) (i : nat)
    (arr : list JSString) : list JSString * list string :=
  match arr with
  | [] => ([], [])
  | item :: rest =>
      let '(validatedItems, errors) :=
        validateArray_loop validator (S i) rest in
      match validator item with
      | Valid value => (value :: validatedItems, errors)
      | Invalid error =>
          (validatedItems,
           ("Item " +:+ pretty (S i) +:+ ": " +:+ error) :: errors)
      end
  end.

(** [minLength !== undefined && n < minLength] and
    [maxLength !== undefined && n > maxLength] *)
Definition below_min (minLength : option nat) (n : nat) : bool :=
  match minLength with
  | Some m => bool_decide (n < m)%nat
  | None => false
  end.

Definition above_max (maxLength : option nat) (n : nat) : bool :=
  match maxLength with
  | Some m => bool_decide (m < n)%nat
  | None => false
  end.

(** [validateArray(arr, validator, { minLength, maxLength, required })],
    [arr] being [None] when it is missing or not an array. *)
Definition validateArray (arr : option (list JSString))
    (validator : JSString → Validation)
    (minLength maxLength : option nat) (required : option bool)
    : ArrayValidation :=
  match arr with
  | None =>
      if default true required then InvalidItems "Array is required"
      else ValidItems []
  | Some arr =>
      if below_min minLength (length arr) then
        InvalidItems ("Array must have at least "
                      +:+ pretty (default 0%nat minLength) +:+ " items")
      else if above_max maxLength (length arr) then
        InvalidItems ("Array cannot have more than "
                      +:+ pretty (default 0%nat maxLength) +:+ " items")
      else
        let '(validatedItems, errors) := validateArray_loop validator 0 arr in
        if bool_decide (0 < length errors)%nat
        then InvalidItems (String.concat "; " errors)
        else ValidItems validatedItems
  end.

(** ** [utils/formatters.js] *)

(** [s.substring(0, end)]: a negative [end] counts as 0. *)
Definition substring0 (s : JSString) (end_ : Z) : JSString :=
  take (Z.to_nat end_) s.

(** [truncateText(text, maxLength = 100)] *)
Definition truncateText (text : JSString) (maxLength : Z) : JSString :=
  if bool_decide (text = []) then []
  else if bool_decide (Z.of_nat (length text) ≤ maxLength) then text
  else substring0 text (maxLength - 3) ++ code_units "...".

(** [formatCompanyName(name, maxLength = 50)] *)
Definition formatCompanyName (name : JSString) (maxLength : Z) : JSString :=
  if bool_decide (name = []) then []
  else if bool_decide (Z.of_nat (length name) ≤ maxLength) then name
  else substring0 name (maxLength - 3) ++ code_units "...".

Definition formatSearchQuery (query : JSString) : JSString :=
  if bool_decide (query = []) then []
  else collapse_whitespace (trim query).

(** ** Vocabulary of the properties *)

(** The trace of a [retryRequest] whose calls threw [es], one after the
    other, none of them ending the loop early: a backoff wait of
    [1000 * 2^(n-1)] ms follows failed attempt [n], except the last. *)
Fixpoint failing_trace (attempt : nat) (es : list ErrorRecord) : list Event :=
  match es with
  | [] => []
  | e :: es' =>
      Request attempt (Some e)
      :: match es' with
         | [] => []
         | _ :: _ =>
             Backoff attempt (1000 * 2 ^ (Z.of_nat attempt - 1))
             :: failing_trace (S attempt) es'
         end
  end.

(** How many times the trace called [requestFn]. *)
Definition attempts (tr : list Event) : nat :=
  length (List.filter (λ ev, match ev with Request _ _ => true | _ => false end) tr).

(** The errors [retryRequest] does not retry, as the specification lists
    them. *)
Definition terminal (e : ErrorRecord) : Prop :=
  type e = VALIDATION_ERROR ∨ type e = NOT_FOUND
  ∨ original_status e = Some 400.

(** A record classified from an answer 429: its kind is RATE_LIMIT and its
    hint is the [retry-after] header of that answer. *)
Definition rate_limited (e : ErrorRecord) : Prop :=
  ∃ r, response (originalError e) = Some r
       ∧ status r = 429
       ∧ type e = RATE_LIMIT
       ∧ retryAfter e = headers r !! "retry-after".

(** What an operation may do to the cache without writing to it: nothing,
    or the eviction, by its own lookup, of the expired entry under its
    key. *)
Definition not_written `{!Runtime W} (op : ReadOp) (w : W)
    (cache cache' : Cache) : Prop :=
  cache' = cache
  ∨ (cache' = delete (op_key op) cache
     ∧ ∃ entry, cache !! op_key op = Some entry
                ∧ op_ttl op ≤ Date_now w - timestamp entry).

(** How a call of [apiService.searchCompanies] settles: it throws a
    classified error or returns an envelope. *)
Definition settles (x : ErrorRecord + Envelope) : Completion Envelope :=
  match x with
  | inl e => Threw (Some e)
  | inr response => Returned response
  end.

(** The results the hook shows for a settled call. *)
Definition shown (x : ErrorRecord + Envelope) : list Item :=
  match x with
  | inr response =>
      if bool_decide (env_status response = "success")
      then searchResults_of response else []
  | inl _ => []
  end.

(** The store after [saveRecentSearch] was called for each query of [qs],
    first to last. *)
Definition saves (qs : list string) (localStorage : Storage) : Storage :=
  foldl (λ ls q, saveRecentSearch q ls) localStorage qs.

(** A list of queries with [query] moved, or added, to its front. *)
Definition moved_to_front (query : string) (l : list string) : list string :=
  query :: filter (λ s, s ≠ query) l.

(** A query as the specification wants it passed through: white space
    removed at both ends and every inner run of white space made one
    space. *)
Definition trimmed_and_collapsed (query : JSString) : JSString :=
  collapse_whitespace (trim query).

(** The time a trace spent in backoff waits, in ms. *)
Definition total_wait (tr : list Event) : Z :=
  foldr (λ ev acc, match ev with Backoff _ d => d + acc | _ => acc end) 0 tr.

(** The order [Array.prototype.sort] puts keys in. *)
Definition key_le (a b : string) : Prop := String.leb a b = true.

(** Renders that follow one another, and the render at [t] with value [v],
    by less than [delay], each with a value other than the one before. *)
Fixpoint rapid (delay t : Z) (v : string) (burst : list (Z * string)) : Prop :=
  match burst with
  | [] => True
  | tv :: rest =>
      t ≤ tv.1 < t + delay ∧ tv.2 ≠ v ∧ rapid delay tv.1 tv.2 rest
  end.

(** Every white space of [s] is one space standing alone; [after_ws]
    tells that white space stands right before [s]. *)
Fixpoint single_spaced (after_ws : bool) (s : JSString) : bool :=
  match s with
  | [] => true
  | c :: s' =>
      if is_whitespace c
      then bool_decide (c = 0x20%N) && negb after_ws && single_spaced true s'
      else single_spaced false s'
  end.

(** Neither an angle bracket nor a quote. *)
Definition harmless (c : N) : Prop := is_angle c = false ∧ is_quote c = false.

(** ** Worlds and data of the examples *)

(** A clock and a count of the requests the server has seen. *)
Record TestWorld := {
  tw_clock : Z;
  tw_calls : nat;
}.

#[global] Instance TestWorld_runtime : Runtime TestWorld := {|
  Date_now := tw_clock;
  setTimeout delay w := {| tw_clock := tw_clock w + delay; tw_calls := tw_calls w |};
|}.

Definition world0 : TestWorld := {| tw_clock := 0; tw_calls := 0 |}.

(** Two minutes later. *)
Definition world_2min : TestWorld := {| tw_clock := 120000; tw_calls := 0 |}.

(** The failure axios rejects with when the server answers [st]. *)
Definition http_failure (st : Z) (hdrs : gmap string string) : AxiosError :=
  {| ax_message := "Request failed with status code " +:+ pretty st;
     code := Some "ERR_BAD_RESPONSE";
     response := Some {| status := st; data := None; headers := hdrs |} |}.

(** The failure axios rejects with when [timeout] is exceeded. *)
Definition timeout_failure : AxiosError :=
  {| ax_message := "timeout of 30000ms exceeded";
     code := Some "ECONNABORTED";
     response := None |}.

(** A request that takes 50 ms and always fails with [failure]. *)
Definition always_failing (failure : AxiosError)
    : TestWorld → (ErrorRecord + Response) * TestWorld :=
  λ w, (inl (transformError failure),
        {| tw_clock := tw_clock w + 50; tw_calls := S (tw_calls w) |}).

(** The error record of a server answer 500. *)
Definition error500 : ErrorRecord := transformError (http_failure 500 ∅).

(** The error record of a server answer 429 that asks to wait 30 s. *)
Definition error429 : ErrorRecord :=
  transformError (http_failure 429 {["retry-after" := "30"]}).

(** An HTTP client whose server always answers 500, and one whose server
    always answers with the envelope [envelope]. *)
Definition failing_client
    : string → list (string * ParamValue) → TestWorld
      → (ErrorRecord + Response) * TestWorld :=
  λ _ _, always_failing (http_failure 500 ∅).

Definition answering_client (envelope : Envelope)
    : string → list (string * ParamValue) → TestWorld
      → (ErrorRecord + Response) * TestWorld :=
  λ _ _ w, (inr {| resp_status := 200; resp_data := envelope |},
            {| tw_clock := tw_clock w + 50; tw_calls := S (tw_calls w) |}).

Definition no_options : SearchOptions :=
  {| so_limit := None; so_useCache := None |}.

Definition success_with (items : list Item) : Envelope :=
  {| env_status := "success"; env_message := None;
     env_data := Some {| p_results := Some items; p_suggestions := None |} |}.

Definition apple_envelope : Envelope := success_with ["Apple Inc."].

(** A cache that holds, for the search of [apple], an entry written at
    time 0: at [world_2min] it has just expired. *)
Definition apple_cache : Cache :=
  {[ "search:apple?q=apple" :=
       {| entry_data := apple_envelope; timestamp := 0;
          entry_ttl := CACHE_CONFIG.SEARCH_TTL |} ]}.

(** Thirteen saves of twelve distinct queries, [AAPL] twice. *)
Definition thirteen_saves : list string :=
  ["AAPL"; "MSFT"; "GOOG"; "AMZN"; "TSLA"; "META"; "NVDA"; "AAPL"; "IBM";
   "ORCL"; "INTC"; "AMD"; "NFLX"].

(** The search of [apple] with default options. *)
Definition apple_search : ReadOp := SearchCompanies "apple" no_options.

(** The query typed as [T], [TS], [TSL], [TSLA], 50 ms apart, after a mount
    with the empty query at time 0. *)
Definition typing_TSLA : list (Z * string) :=
  [(100, "T"); (150, "TS"); (200, "TSL"); (250, "TSLA")].

(** The search of [apple] with [useCache: false]. *)
Definition apple_search_uncached : ReadOp :=
  SearchCompanies "apple" {| so_limit := None; so_useCache := Some false |}.

(** Splits a goal that is a conjunction into its conjuncts, without going
    under implications. *)
Ltac conjuncts :=
  repeat match goal with |- _ ∧ _ => split end.

(** ** Properties of the error classifier *)

Lemma no_retry_terminal (e : ErrorRecord) : no_retry e = true ↔ terminal e.
Proof.
  unfold no_retry, terminal.
  rewrite !orb_true_iff, !bool_decide_eq_true. tauto.
Qed.

Lemma no_retry_false (e : ErrorRecord) : no_retry e = false ↔ ¬ terminal e.
Proof.
  rewrite <- no_retry_terminal. destruct (no_retry e); split; congruence.
Qed.

Lemma transformError_original (error : AxiosError) :
  originalError (transformError error) = error.
Proof.
  unfold transformError.
  destruct (response error) as [r|]; [|done].
  repeat case_decide; done.
Qed.

(** The classifier answers one of six kinds, never TIMEOUT_ERROR or
    UNKNOWN_ERROR. *)
Lemma transformError_kinds (error : AxiosError) :
  type (transformError error)
  ∈ [NETWORK_ERROR; VALIDATION_ERROR; NOT_FOUND; RATE_LIMIT; SERVER_ERROR; API_ERROR].
Proof.
  unfold transformError. destruct (response error) as [r|].
  - repeat case_decide; simpl; set_solver.
  - simpl. set_solver.
Qed.

(** C6.  [transformError] maps every failure to one kind: no response gives
    NETWORK_ERROR; status 400 gives VALIDATION_ERROR with the body's
    [errors] (or the empty list); 404 gives NOT_FOUND; 429 gives RATE_LIMIT
    with the [retry-after] header; 500, 502, 503 and 504 give SERVER_ERROR;
    every other status gives API_ERROR.  The cases are exclusive and cover
    every input, and the result is a function of the input alone. *)
Theorem C6_transformError_classification (error : AxiosError) :
  let record := transformError error in
  (response error = None → type record = NETWORK_ERROR)
  ∧ (∀ r, response error = Some r →
       (status r = 400 →
          type record = VALIDATION_ERROR
          ∧ errors record = Some (default [] (data_errors r)))
       ∧ (status r = 404 → type record = NOT_FOUND)
       ∧ (status r = 429 →
            type record = RATE_LIMIT
            ∧ retryAfter record = headers r !! "retry-after")
       ∧ (status r ∈ [500; 502; 503; 504] → type record = SERVER_ERROR)
       ∧ (status r ∉ [400; 404; 429; 500; 502; 503; 504] →
            type record = API_ERROR))
  ∧ originalError record = error
  ∧ type record
    ∈ [NETWORK_ERROR; VALIDATION_ERROR; NOT_FOUND; RATE_LIMIT; SERVER_ERROR;
       API_ERROR]
  ∧ (∀ error', error' = error → type (transformError error') = type record).
Proof.
  cbv zeta. conjuncts.
  - intros Hnone. unfold transformError. by rewrite Hnone.
  - intros r Hr. unfold transformError. rewrite Hr.
    unfold HTTP_STATUS.BAD_REQUEST, HTTP_STATUS.NOT_FOUND,
      HTTP_STATUS.TOO_MANY_REQUESTS, HTTP_STATUS.INTERNAL_SERVER_ERROR,
      HTTP_STATUS.BAD_GATEWAY, HTTP_STATUS.SERVICE_UNAVAILABLE,
      HTTP_STATUS.GATEWAY_TIMEOUT.
    split; [|split; [|split; [|split]]]; intros Hs;
      repeat case_decide; simpl;
      first [done | lia | set_unfold; intuition lia].
  - apply transformError_original.
  - apply transformError_kinds.
  - by intros ? ->.
Qed.

(** C8, as the specification states it, fails: no input of the classifier,
    a timed-out request among them, is given the kind TIMEOUT_ERROR. *)
Lemma C8_no_timeout_classification :
  ¬ ∃ error : AxiosError, type (transformError error) = TIMEOUT_ERROR.
Proof.
  intros [error H]. pose proof (transformError_kinds error) as Hk.
  rewrite H in Hk. set_solver.
Qed.

(** C8, amended.  The client's timeout is 30000 ms; a request that exceeds
    it is rejected without a response, and every failure without a response
    is classified NETWORK_ERROR.  TIMEOUT_ERROR is a kind of the taxonomy
    that the classifier never produces. *)
Theorem C8_timeout_is_network_error :
  API_CONFIG.TIMEOUT = 30000
  ∧ response timeout_failure = None
  ∧ type (transformError timeout_failure) = NETWORK_ERROR
  ∧ (∀ error, response error = None →
       type (transformError error) = NETWORK_ERROR)
  ∧ (∀ error, type (transformError error) ≠ TIMEOUT_ERROR).
Proof.
  conjuncts; [done..| |].
  - intros error H. unfold transformError. by rewrite H.
  - intros error H. pose proof (transformError_kinds error) as Hk.
    rewrite H in Hk. set_solver.
Qed.

(** ** Properties of the retry loop *)

Section retry_properties.
Context {W : Type} `{!Runtime W} {A : Type}.
Implicit Types (requestFn : W → (ErrorRecord + A) * W) (w : W).

(** The fuel [retryRequest] supplies is never what stops the loop: from
    [attempt] on, any fuel of at least [maxRetries + 1 - attempt] gives the
    same run. *)
Lemma retryLoop_fuel requestFn maxRetries fuel fuel' attempt lastError w :
  (S maxRetries ≤ attempt + fuel)%nat →
  (S maxRetries ≤ attempt + fuel')%nat →
  retryLoop requestFn maxRetries fuel attempt lastError w
  = retryLoop requestFn maxRetries fuel' attempt lastError w.
Proof.
  revert fuel' attempt lastError w.
  induction fuel as [|fuel IH]; intros fuel' attempt lastError w Hf Hf'.
  - destruct fuel' as [|fuel']; [done|]. simpl.
    case_decide; [lia|done].
  - destruct fuel' as [|fuel']; simpl.
    + case_decide; [lia|done].
    + case_decide; [|done].
      destruct (requestFn w) as [[e|r] w1]; [|done].
      destruct (no_retry e); [done|].
      case_decide; rewrite (IH fuel') by lia; done.
Qed.

(** A terminal error ends the loop at the attempt that met it. *)
Lemma retryLoop_terminal requestFn maxRetries fuel attempt lastError w e w1 :
  (attempt ≤ maxRetries)%nat →
  requestFn w = (inl e, w1) →
  terminal e →
  retryLoop requestFn maxRetries (S fuel) attempt lastError w
  = (Threw (Some e), w1, [Request attempt (Some e)]).
Proof.
  intros Hle Hreq Hterm. simpl.
  rewrite decide_True by done. rewrite Hreq.
  by rewrite (proj2 (no_retry_terminal e) Hterm).
Qed.

(** A request that keeps throwing errors that are not terminal, each of
    them satisfying [P]: the loop calls it once per remaining attempt,
    waits in between, and throws the last error. *)
Lemma retryLoop_keeps_failing (P : ErrorRecord → Prop) requestFn maxRetries :
  (∀ w, ∃ e w1, requestFn w = (inl e, w1) ∧ ¬ terminal e ∧ P e) →
  ∀ fuel attempt lastError w,
    (attempt + fuel = S maxRetries)%nat →
    ∃ es w',
      retryLoop requestFn maxRetries fuel attempt lastError w
      = (Threw (from_option Some lastError (last es)), w',
         failing_trace attempt es)
      ∧ length es = fuel
      ∧ Forall (λ e, ¬ terminal e ∧ P e) es.
Proof.
  intros Hfail. induction fuel as [|fuel IH]; intros attempt lastError w Hsum.
  - exists [], w. done.
  - destruct (Hfail w) as (e & w1 & Hreq & Hnt & HP).
    simpl. rewrite decide_True by lia. rewrite Hreq.
    rewrite (proj2 (no_retry_false e) Hnt).
    case_decide as Hlt.
    + destruct (IH (S attempt) (Some e) (setTimeout (backoff_delay attempt) w1))
        as (es & w' & -> & Hlen & Hall); [lia|].
      exists (e :: es), w'. split; [|split].
      * rewrite last_cons.
        replace (from_option Some (Some e) (last es))
          with (from_option Some lastError
                  match last es with Some y => Some y | None => Some e end)
          by (by destruct (last es)).
        destruct es as [|e' es]; [simpl in Hlen; lia|]. done.
      * simpl. by rewrite Hlen.
      * by constructor.
    + destruct (IH (S attempt) (Some e) w1)
        as (es & w' & -> & Hlen & Hall); [lia|].
      assert (fuel = 0)%nat as -> by lia.
      destruct es; [|done].
      exists [e], w'. split; [done|]. split; [done|]. by constructor.
Qed.

End retry_properties.

Lemma attempts_failing_trace (attempt : nat) (es : list ErrorRecord) :
  attempts (failing_trace attempt es) = length es.
Proof.
  revert attempt. induction es as [|e es IH]; intros attempt; [done|].
  destruct es as [|e' es]; [done|].
  specialize (IH (S attempt)). unfold attempts in *.
  change (failing_trace attempt (e :: e' :: es))
    with (Request attempt (Some e)
          :: Backoff attempt (1000 * 2 ^ (Z.of_nat attempt - 1))
          :: failing_trace (S attempt) (e' :: es)).
  cbn [List.filter length]. by rewrite IH.
Qed.

Lemma backoff_in_failing_trace (attempt : nat) (es : list ErrorRecord) n d :
  Backoff n d ∈ failing_trace attempt es →
  d = 1000 * 2 ^ (Z.of_nat n - 1)
  ∧ (attempt ≤ n)%nat ∧ (S n < attempt + length es)%nat.
Proof.
  revert attempt. induction es as [|e es IH]; intros attempt Hin.
  - by apply elem_of_nil in Hin.
  - destruct es as [|e' es].
    + apply list_elem_of_singleton in Hin. done.
    + change (failing_trace attempt (e :: e' :: es))
        with (Request attempt (Some e)
              :: Backoff attempt (1000 * 2 ^ (Z.of_nat attempt - 1))
              :: failing_trace (S attempt) (e' :: es)) in Hin.
      apply elem_of_cons in Hin as [Hin|Hin]; [done|].
      apply elem_of_cons in Hin as [Hin|Hin].
      * injection Hin as -> ->. simpl. split; [done|lia].
      * apply IH in Hin as (? & ? & ?). simpl in *. split; [done|lia].
Qed.

(** C1.  With at least one attempt allowed: an error that is a
    VALIDATION_ERROR, a NOT_FOUND or carries HTTP status 400 is rethrown
    after the first attempt, with no wait and no further call; a request
    that keeps failing with other errors is called exactly [maxRetries]
    times (the first attempt and [maxRetries - 1] more), the wait after
    failed attempt [n] is [1000 * 2^(n-1)] ms, no wait follows the last
    attempt, and the error thrown is the one the last attempt threw. *)
Theorem C1_retry_policy {W : Type} `{!Runtime W} {A : Type}
    (requestFn : W → (ErrorRecord + A) * W) (maxRetries : nat) (w : W) :
  (1 ≤ maxRetries)%nat →
  (∀ e w1, requestFn w = (inl e, w1) → terminal e →
     retryRequest requestFn maxRetries w
     = (Threw (Some e), w1, [Request 1 (Some e)]))
  ∧ ((∀ w0, ∃ e w1, requestFn w0 = (inl e, w1) ∧ ¬ terminal e) →
     ∃ es w',
       retryRequest requestFn maxRetries w
       = (Threw (last es), w', failing_trace 1 es)
       ∧ length es = maxRetries
       ∧ Forall (λ e, ¬ terminal e ∧ ∃ w0 w1, requestFn w0 = (inl e, w1)) es
       ∧ attempts (failing_trace 1 es) = (1 + (maxRetries - 1))%nat
       ∧ (∀ n d, Backoff n d ∈ failing_trace 1 es →
            d = 1000 * 2 ^ (Z.of_nat n - 1) ∧ (1 ≤ n < maxRetries)%nat)).
Proof.
  intros Hmax. split.
  - intros e w1 Hreq Hterm. unfold retryRequest.
    destruct maxRetries as [|m]; [lia|].
    apply retryLoop_terminal; [lia|done..].
  - intros Hfail. unfold retryRequest.
    destruct (retryLoop_keeps_failing
                (λ e, ∃ w0 w1, requestFn w0 = (inl e, w1)) requestFn maxRetries)
      with (fuel := maxRetries) (attempt := 1%nat) (lastError := @None ErrorRecord)
           (w := w)
      as (es & w' & Heq & Hlen & Hall); [|lia|].
    { intros w0. destruct (Hfail w0) as (e & w1 & Hreq & Hnt).
      exists e, w1. split; [done|]. split; [done|]. by exists w0, w1. }
    exists es, w'. rewrite Heq. conjuncts; [|done..| |].
    + by destruct (last es).
    + rewrite attempts_failing_trace. lia.
    + intros n d Hin. apply backoff_in_failing_trace in Hin. lia.
Qed.

(** C1 at work: three attempts against a server that always answers 500,
    with waits of 1000 and 2000 ms in between. *)
Lemma C1_retry_policy_witness :
  ∃ es w',
    retryRequest (always_failing (http_failure 500 ∅)) 3 world0
    = (Threw (last es), w', failing_trace 1 es)
    ∧ length es = 3%nat
    ∧ Forall (λ e, ¬ terminal e
                   ∧ ∃ w0 w1, always_failing (http_failure 500 ∅) w0
                              = (inl e, w1)) es
    ∧ attempts (failing_trace 1 es) = (1 + (3 - 1))%nat
    ∧ (∀ n d, Backoff n d ∈ failing_trace 1 es →
         d = 1000 * 2 ^ (Z.of_nat n - 1) ∧ (1 ≤ n < 3)%nat).
Proof.
  refine (proj2 (C1_retry_policy (always_failing (http_failure 500 ∅)) 3 world0 _) _).
  - lia.
  - intros w0. eexists _, _. split; [reflexivity|].
    unfold terminal. vm_compute. intros [H|[H|H]]; discriminate H.
Defined.

Example retryRequest_500 :
  retryRequest (always_failing (http_failure 500 ∅)) 3 world0
  = (Threw (Some error500), {| tw_clock := 3150; tw_calls := 3 |},
     [Request 1 (Some error500); Backoff 1 1000;
      Request 2 (Some error500); Backoff 2 2000;
      Request 3 (Some error500)]).
Proof. vm_compute. reflexivity. Qed.

Example retryRequest_400 :
  retryRequest (always_failing (http_failure 400 ∅)) 3 world0
  = (Threw (Some (transformError (http_failure 400 ∅))),
     {| tw_clock := 50; tw_calls := 1 |},
     [Request 1 (Some (transformError (http_failure 400 ∅)))]).
Proof. vm_compute. reflexivity. Qed.

(** C2, as the specification states it, fails: a request that is answered
    429 is issued again, twice, with the usual waits, before the RATE_LIMIT
    record reaches the caller. *)
Lemma C2_rate_limited_request_is_retried :
  type error429 = RATE_LIMIT
  ∧ retryRequest (always_failing (http_failure 429 {["retry-after" := "30"]}))
      3 world0
    = (Threw (Some error429), {| tw_clock := 3150; tw_calls := 3 |},
       [Request 1 (Some error429); Backoff 1 1000;
        Request 2 (Some error429); Backoff 2 2000;
        Request 3 (Some error429)]).
Proof. split; vm_compute; reflexivity. Qed.

Lemma transformError_429 (failure : AxiosError) (r : ErrorResponse) :
  response failure = Some r → status r = 429 →
  rate_limited (transformError failure) ∧ ¬ terminal (transformError failure).
Proof.
  intros Hr Hs.
  assert (type (transformError failure) = RATE_LIMIT
          ∧ retryAfter (transformError failure) = headers r !! "retry-after")
    as [Hty Hra].
  { unfold transformError. rewrite Hr.
    unfold HTTP_STATUS.BAD_REQUEST, HTTP_STATUS.NOT_FOUND,
      HTTP_STATUS.TOO_MANY_REQUESTS.
    repeat case_decide; first [lia | done]. }
  split.
  - exists r. by rewrite transformError_original.
  - unfold terminal, original_status.
    rewrite transformError_original, Hr, Hty. simpl.
    intros [H|[H|H]]; [discriminate H|discriminate H|].
    injection H as H. lia.
Qed.

(** C2, amended.  A failure classified RATE_LIMIT is retried like any other
    error that is not terminal: a request that keeps being answered 429 is
    called [maxRetries] times with the exponential waits in between, and
    the record thrown in the end is the RATE_LIMIT record of the last
    answer, with its retry-after hint. *)
Theorem C2_rate_limit_is_retried {W : Type} `{!Runtime W} {A : Type}
    (requestFn : W → (ErrorRecord + A) * W) (maxRetries : nat) (w : W) :
  (1 ≤ maxRetries)%nat →
  (∀ w0, ∃ failure r w1,
     requestFn w0 = (inl (transformError failure), w1)
     ∧ response failure = Some r ∧ status r = 429) →
  ∃ es e w',
    retryRequest requestFn maxRetries w
    = (Threw (Some e), w', failing_trace 1 es)
    ∧ last es = Some e
    ∧ rate_limited e
    ∧ Forall rate_limited es
    ∧ attempts (failing_trace 1 es) = maxRetries.
Proof.
  intros Hmax Hfail. unfold retryRequest.
  destruct (retryLoop_keeps_failing rate_limited requestFn maxRetries)
    with (fuel := maxRetries) (attempt := 1%nat) (lastError := @None ErrorRecord)
         (w := w)
    as (es & w' & Heq & Hlen & Hall); [|lia|].
  { intros w0. destruct (Hfail w0) as (failure & r & w1 & Hreq & Hr & Hs).
    destruct (transformError_429 failure r Hr Hs). eauto. }
  destruct (last es) as [e|] eqn:Hlast.
  - exists es, e, w'. rewrite Heq. split; [done|]. split; [done|].
    split; [|split].
    + apply last_Some in Hlast as [es' ->].
      apply Forall_app in Hall as [_ Hall].
      by apply Forall_singleton in Hall as [_ ?].
    + eapply Forall_impl; [exact Hall|]. by intros ? [_ ?].
    + rewrite attempts_failing_trace. done.
  - apply last_None in Hlast. subst es. simpl in Hlen. lia.
Qed.

(** C2 amended, at work against a server that always answers 429. *)
Lemma C2_rate_limit_is_retried_witness :
  ∃ es e w',
    retryRequest (always_failing (http_failure 429 {["retry-after" := "30"]}))
      3 world0
    = (Threw (Some e), w', failing_trace 1 es)
    ∧ last es = Some e
    ∧ rate_limited e
    ∧ Forall rate_limited es
    ∧ attempts (failing_trace 1 es) = 3%nat.
Proof.
  refine (C2_rate_limit_is_retried
            (always_failing (http_failure 429 {["retry-after" := "30"]}))
            3 world0 _ _).
  - lia.
  - intros w0. eexists _, _, _. split; [reflexivity|]. split; reflexivity.
Defined.

(** ** Properties of the response cache *)

(** C4.  After [setCache k v t] at time [created], [getCache k t] at time
    [now] returns [v] and leaves the cache alone when [now - created < t];
    once [t] has elapsed it returns [null], deletes the entry, and every
    later [getCache k] returns [null] as well. *)
Theorem C4_cache_get_after_put {V : Type} (cache : gmap string (CacheEntry V))
    (k : string) (v : V) (t created now : Z) :
  let cache1 := setCache k v t created cache in
  (isValidCacheEntry (cache1 !! k) t now = true ↔ now - created < t)
  ∧ (now - created < t → getCache k t now cache1 = (Some v, cache1))
  ∧ (t ≤ now - created →
       getCache k t now cache1 = (None, delete k cache)
       ∧ delete k cache !! k = None
       ∧ ∀ t' now',
           getCache k t' now' (delete k cache) = (None, delete k cache)).
Proof.
  cbv zeta. unfold getCache, setCache.
  rewrite lookup_insert_eq. simpl. rewrite bool_decide_eq_true.
  split; [done|]. split.
  - intros Hlt. by rewrite bool_decide_true.
  - intros Hge. rewrite bool_decide_false by lia.
    rewrite delete_insert_eq. split; [done|].
    rewrite lookup_delete_eq. split; [done|].
    intros t' now'. simpl. by rewrite delete_delete_eq.
Qed.

(** Freshness is judged by the TTL handed to [getCache]; the [ttl] stored
    with the entry is never read.  Every caller hands [getCache] the TTL it
    hands [setCache] for the same key. *)
Remark getCache_ttl_of_the_call {V : Type}
    (cache : gmap string (CacheEntry V)) (k : string) (v : V)
    (t t' created now : Z) :
  (getCache k t' now (setCache k v t created cache)).1
  = if bool_decide (now - created < t') then Some v else None.
Proof.
  unfold getCache, setCache. rewrite lookup_insert_eq. simpl.
  by case_bool_decide.
Qed.

Example cache_fresh_then_stale :
  let cache1 := setCache "k" "v" 60000 1000 (∅ : gmap string (CacheEntry string)) in
  (getCache "k" 60000 60999 cache1).1 = Some "v"
  ∧ (getCache "k" 60000 61000 cache1).1 = None
  ∧ (getCache "k" 60000 61000 cache1).2 !! "k" = None.
Proof. vm_compute. done. Qed.

Section facade_properties.
Context {W : Type} `{!Runtime W}.
Variable apiClient_get :
  string → list (string * ParamValue) → W → (ErrorRecord + Response) * W.

Lemma getCache_miss (key : string) (ttl now : Z) (cache cache1 : Cache) :
  getCache key ttl now cache = (None, cache1) →
  cache1 = cache
  ∨ (cache1 = delete key cache
     ∧ ∃ entry, cache !! key = Some entry ∧ ttl ≤ now - timestamp entry).
Proof.
  unfold getCache. destruct (cache !! key) as [entry|] eqn:Hk; simpl.
  - case_bool_decide; intros [= <-]. right. split; [done|].
    exists entry. split; [done|lia].
  - intros [= <-]. left. by apply delete_id.
Qed.

Lemma getCache_hit (key : string) (ttl now : Z) (cache cache1 : Cache) hit :
  getCache key ttl now cache = (Some hit, cache1) → cache1 = cache.
Proof.
  unfold getCache. destruct (isValidCacheEntry _ _ _); by intros [= _ <-].
Qed.

(** The shared body: whatever the request does, the cache afterwards is the
    cache before, possibly without the expired entry under [cacheKey], or,
    when an envelope with status [success] came back, the cache before with
    that envelope stored under [cacheKey]. *)
Lemma cached_read_cache (cacheKey : string) (ttl : Z) (useCache : bool)
    (requestFn : W → (ErrorRecord + Response) * W) (w : W) (cache : Cache) :
  ∀ c w' cache',
    cached_read cacheKey ttl useCache requestFn w cache = (c, w', cache') →
    let evicted :=
      cache' = cache
      ∨ (cache' = delete cacheKey cache
         ∧ ∃ entry, cache !! cacheKey = Some entry
                    ∧ ttl ≤ Date_now w - timestamp entry) in
    (evicted
     ∨ ∃ result, c = Returned result ∧ env_status result = "success"
         ∧ useCache = true
         ∧ cache' = <[cacheKey := {| entry_data := result;
                                     timestamp := Date_now w';
                                     entry_ttl := ttl |}]> cache)
    ∧ (∀ e, c = Threw e → evicted)
    ∧ (∀ result, c = Returned result → env_status result ≠ "success" → evicted).
Proof.
  intros c w' cache' Hrun. cbv zeta. unfold cached_read in Hrun.
  destruct (if useCache then getCache cacheKey ttl (Date_now w) cache
            else (None, cache)) as [cached cache1] eqn:Hget.
  assert (cache1 = cache
          ∨ (cache1 = delete cacheKey cache
             ∧ ∃ entry, cache !! cacheKey = Some entry
                        ∧ ttl ≤ Date_now w - timestamp entry)) as Hev.
  { destruct useCache; [|left; congruence].
    destruct cached; [left; by eapply getCache_hit|by eapply getCache_miss]. }
  destruct cached as [hit|].
  { injection Hrun as <- <- <-. split; [by left|]. split; [done|]. done. }
  destruct (retryRequest requestFn API_CONFIG.RETRY_ATTEMPTS w)
    as [[c1 w1] tr].
  destruct c1 as [response|e].
  - injection Hrun as <- <- <-.
    destruct useCache; simpl.
    + case_bool_decide as Hs.
      * split; [|split; [done|]].
        -- right. exists (resp_data response). split; [done|].
           split; [done|]. split; [done|]. unfold setCache.
           destruct Hev as [->|[-> _]]; [done|]. by rewrite insert_delete_eq.
        -- intros result [= <-] Hns. done.
      * split; [by left|]. split; [done|]. done.
    + split; [by left|]. split; [done|]. done.
  - injection Hrun as <- <- <-. split; [by left|]. split; [done|]. done.
Qed.

(** C5, amended.  A cached read operation writes to the cache only when an
    envelope with status [success] came back from the request, and then
    stores it under the operation's key.  When the request throws, or the
    envelope has another status, nothing is written: the cache is as it
    was, except that the lookup has deleted the operation's own entry if
    that entry had expired. *)
Theorem C5_cache_written_only_on_success (op : ReadOp) (w : W) (cache : Cache) :
  let '(c, w', cache') := run_op apiClient_get op w cache in
  (not_written op w cache cache'
   ∨ ∃ result, c = Returned result ∧ env_status result = "success"
       ∧ cache' = <[op_key op := {| entry_data := result;
                                    timestamp := Date_now w';
                                    entry_ttl := op_ttl op |}]> cache)
  ∧ (∀ e, c = Threw e → not_written op w cache cache')
  ∧ (∀ result, c = Returned result → env_status result ≠ "success" →
       not_written op w cache cache').
Proof.
  destruct (run_op apiClient_get op w cache) as [[c w'] cache'] eqn:Hrun.
  unfold not_written.
  destruct op; simpl in Hrun |- *;
    apply cached_read_cache in Hrun; cbv zeta in Hrun;
    destruct Hrun as (H1 & H2 & H3);
    (split; [|split; [done|done]]);
    (destruct H1 as [H1|(result & ? & ? & _ & ?)]; [by left|right; eauto]).
Qed.

End facade_properties.

(** C5, as the specification states it, fails: a search whose request
    throws leaves the cache changed when the entry under its key had
    expired, for the lookup deletes that entry before the request is
    made. *)
Lemma C5_failed_search_evicts :
  let '(c, _, cache') :=
    searchCompanies failing_client "apple" no_options world_2min apple_cache in
  c = Threw (Some error500)
  ∧ searchCompanies_key "apple" no_options = "search:apple?q=apple"
  ∧ is_Some (apple_cache !! "search:apple?q=apple")
  ∧ cache' !! "search:apple?q=apple" = None
  ∧ cache' ≠ apple_cache.
Proof.
  vm_compute. split; [done|]. split; [done|]. split; [eauto|]. split; [done|].
  intros H. discriminate H.
Qed.

Example search_success_is_cached :
  let '(c, w', cache') :=
    searchCompanies (answering_client apple_envelope) "apple" no_options
      world0 ∅ in
  c = Returned apple_envelope
  ∧ cache' !! "search:apple?q=apple"
    = Some {| entry_data := apple_envelope; timestamp := 50;
              entry_ttl := CACHE_CONFIG.SEARCH_TTL |}.
Proof. vm_compute. done. Qed.

(** ** Properties of the search hook *)

Lemma results_settle (q : string)
    (x : ErrorRecord + Envelope) (st : SearchState) (ls : Storage) :
  results (performSearch_settle q (settles x) st ls).1 = shown x.
Proof.
  unfold performSearch_settle, shown.
  destruct x as [e|response]; simpl; [done|].
  case_bool_decide; [|done]. by case_bool_decide.
Qed.

Lemma loading_settle (q : string) (outcome : Completion Envelope)
    (st : SearchState) (ls : Storage) :
  loading (performSearch_settle q outcome st ls).1 = false.
Proof.
  unfold performSearch_settle.
  destruct outcome as [response|[e|]]; simpl; [|done|done].
  repeat case_bool_decide; done.
Qed.

(** C3, as the specification states it, fails: [TS] is searched, then
    [TSLA]; the answer for [TSLA] arrives first and the answer for [TS]
    second; the results shown in the end are those for [TS]. *)
Lemma C3_stale_response_overwrites :
  let final :=
    hook_run SEARCH_CONFIG.MIN_QUERY_LENGTH
      [Issued "TS"; Issued "TSLA";
       Settled "TSLA" (Returned (success_with ["Tesla, Inc."]));
       Settled "TS" (Returned (success_with ["TransAct"; "Tesla, Inc."]))]
      (initialSearchState, ∅) in
  results final.1 = ["TransAct"; "Tesla, Inc."]
  ∧ results final.1 ≠ ["Tesla, Inc."].
Proof. vm_compute. split; [done|]. intros H. discriminate H. Qed.

(** C3, amended.  Two searches are issued, [A] then [B], and the call for
    [B] settles before the call for [A]: after [B]'s answer the results are
    [B]'s, and [A]'s answer then replaces them, so the results shown in the
    end are those of the call that settled last.  No fetch carries a
    sequence number and no answer is discarded. *)
Theorem C3_last_settled_wins (minQueryLength : nat) (A B : string)
    (answerA answerB : ErrorRecord + Envelope) (s : SearchState * Storage) :
  let afterB :=
    hook_run minQueryLength [Issued A; Issued B; Settled B (settles answerB)] s in
  let final := hook_step minQueryLength afterB (Settled A (settles answerA)) in
  hook_run minQueryLength
    [Issued A; Issued B; Settled B (settles answerB); Settled A (settles answerA)] s
  = final
  ∧ results afterB.1 = shown answerB
  ∧ results final.1 = shown answerA
  ∧ loading final.1 = false.
Proof.
  cbv zeta. split; [done|]. split; [|split].
  - apply results_settle.
  - apply results_settle.
  - apply loading_settle.
Qed.

(** ** Properties of the recent-search store *)

(** The hook saves the query of a search exactly when the search came back
    with status [success] and at least one result. *)
Lemma performSearch_settle_saves (q : string) (x : ErrorRecord + Envelope)
    (st : SearchState) (ls : Storage) :
  (performSearch_settle q (settles x) st ls).2
  = match shown x with
    | [] => ls
    | _ :: _ => saveRecentSearch q ls
    end.
Proof.
  unfold performSearch_settle, shown.
  destruct x as [e|response]; simpl; [done|].
  case_bool_decide; [|done].
  by destruct (searchResults_of response).
Qed.

Lemma filter_strict_ne (l : list string) (q : string) :
  List.filter (λ v, strict_ne v q) (JStr <$> l)
  = JStr <$> filter (λ s, s ≠ q) l.
Proof.
  induction l as [|x l IH]; [done|].
  rewrite fmap_cons, filter_cons. cbn [List.filter strict_ne].
  case_bool_decide; case_decide; simpl; try done.
  by rewrite IH.
Qed.

Lemma getRecentSearches_save (l : list string) (q : string) (ls : Storage) :
  getRecentSearches ls = JArr (JStr <$> l) →
  getRecentSearches (saveRecentSearch q ls)
  = JArr (JStr <$> take 10 (moved_to_front q l)).
Proof.
  intros Hl. unfold saveRecentSearch, saveRecentSearch_try. rewrite Hl.
  simpl js_filter. cbv iota beta zeta.
  unfold getRecentSearches, getRecentSearches_try.
  rewrite lookup_insert_eq. simpl.
  rewrite filter_strict_ne. f_equal.
  unfold moved_to_front. by rewrite fmap_take.
Qed.

Lemma filter_ne_id (q : string) (l : list string) :
  q ∉ l → filter (λ s, s ≠ q) l = l.
Proof.
  induction l as [|x l IH]; [done|]. intros Hq.
  apply not_elem_of_cons in Hq as [Hne Hq].
  rewrite filter_cons_True by done. by rewrite IH.
Qed.

Lemma remove_dups_snoc (qs : list string) (q : string) :
  remove_dups (qs ++ [q]) = filter (λ s, s ≠ q) (remove_dups qs) ++ [q].
Proof.
  induction qs as [|x qs IH]; [done|].
  cbn [app remove_dups].
  destruct (decide_rel elem_of x (qs ++ [q])) as [Hin|Hin];
    destruct (decide_rel elem_of x qs) as [Hin'|Hin'].
  - done.
  - apply elem_of_app in Hin as [?|Hin]; [done|].
    apply list_elem_of_singleton in Hin as ->.
    by rewrite filter_cons_False by (by intros ?).
  - exfalso. apply Hin. apply elem_of_app. by left.
  - rewrite filter_cons_True.
    + simpl. by rewrite IH.
    + intros ->. apply Hin. apply elem_of_app. right. by left.
Qed.

(** Cutting a duplicate-free list one element longer before filtering one
    value out does not change the first [n] elements that remain. *)
Lemma take_filter_take (n : nat) (q : string) (l : list string) :
  NoDup l →
  take n (filter (λ s, s ≠ q) (take (S n) l))
  = take n (filter (λ s, s ≠ q) l).
Proof.
  revert n. induction l as [|x l IH]; intros n Hnd; [done|].
  apply NoDup_cons in Hnd as [Hx Hnd]. cbn [take].
  destruct (decide (x = q)) as [->|Hne].
  - rewrite !filter_cons_False by (by intros ?).
    rewrite (filter_ne_id q l) by done.
    rewrite filter_ne_id; [apply take_idemp|].
    intros Hin. apply Hx. by apply (subseteq_take n l).
  - rewrite !filter_cons_True by done.
    destruct n as [|n]; [done|]. cbn [take]. by rewrite IH.
Qed.

Lemma moved_to_front_take (q : string) (l : list string) :
  NoDup l →
  take 10 (moved_to_front q (take 10 l)) = take 10 (moved_to_front q l).
Proof.
  intros Hnd. unfold moved_to_front. cbn [take].
  by rewrite take_filter_take.
Qed.

Lemma getRecentSearches_saves (qs : list string) (ls : Storage) :
  ls !! STORAGE_KEYS.RECENT_SEARCHES = None →
  getRecentSearches (saves qs ls)
  = JArr (JStr <$> take 10 (reverse (remove_dups qs))).
Proof.
  intros Hnone. induction qs as [|q qs IH] using rev_ind.
  - unfold saves, getRecentSearches, getRecentSearches_try. simpl.
    by rewrite Hnone.
  - unfold saves in *. rewrite foldl_snoc.
    rewrite (getRecentSearches_save _ q _ IH).
    rewrite moved_to_front_take
      by (rewrite reverse_Permutation; apply NoDup_remove_dups).
    rewrite remove_dups_snoc, reverse_snoc, <- filter_reverse. done.
Qed.

Lemma moved_to_front_present (q : string) (l : list string) :
  NoDup l → q ∈ l → moved_to_front q l ≡ₚ l.
Proof.
  unfold moved_to_front. induction l as [|x l IH]; intros Hnd Hin.
  - by apply elem_of_nil in Hin.
  - apply NoDup_cons in Hnd as [Hx Hnd].
    destruct (decide (x = q)) as [->|Hne].
    + rewrite filter_cons_False by (by intros ?).
      by rewrite filter_ne_id.
    + rewrite filter_cons_True by done.
      apply elem_of_cons in Hin as [->|Hin]; [done|].
      rewrite Permutation_swap. by rewrite IH.
Qed.

Lemma last_remove_dups (qs : list string) : last (remove_dups qs) = last qs.
Proof.
  destruct qs as [|q qs _] using rev_ind; [done|].
  by rewrite remove_dups_snoc, !last_snoc.
Qed.

(** C7.  Starting from a store without recent searches, after
    [saveRecentSearch] was called for the queries [qs] in turn the stored
    list is the distinct queries of [qs] ordered by their last save, most
    recent first, cut to 10 ([remove_dups] keeps the last occurrence of
    each query): its entries are distinct, there are at most 10 of them, the
    first is the query saved last, and there are exactly 10 once more than
    10 distinct queries were saved.  Saving a query that is in the list
    moves it to the front: the list holds the same queries, none twice. *)
Theorem C7_recent_searches (localStorage : Storage) (qs : list string) :
  localStorage !! STORAGE_KEYS.RECENT_SEARCHES = None →
  let l := take 10 (reverse (remove_dups qs)) in
  getRecentSearches (saves qs localStorage) = JArr (JStr <$> l)
  ∧ NoDup l
  ∧ (length l ≤ 10)%nat
  ∧ head l = last qs
  ∧ ((10 < length (remove_dups qs))%nat → length l = 10%nat)
  ∧ (∀ q, q ∈ l →
       getRecentSearches (saveRecentSearch q (saves qs localStorage))
       = JArr (JStr <$> moved_to_front q l)
       ∧ head (moved_to_front q l) = Some q
       ∧ moved_to_front q l ≡ₚ l
       ∧ NoDup (moved_to_front q l)).
Proof.
  intros Hnone l.
  assert (NoDup l) as Hnd.
  { eapply sublist_NoDup; [|apply sublist_take].
    rewrite reverse_Permutation. apply NoDup_remove_dups. }
  assert (length l ≤ 10)%nat as Hlen.
  { subst l. rewrite length_take. lia. }
  split; [by apply getRecentSearches_saves|].
  split; [done|]. split; [done|]. split; [|split].
  - subst l. rewrite <- last_remove_dups, <- head_reverse.
    by destruct (reverse (remove_dups qs)).
  - intros Hmany. subst l. rewrite length_take, length_reverse. lia.
  - intros q Hq.
    pose proof (moved_to_front_present q l Hnd Hq) as Hperm.
    split; [|split; [done|split; [done|by rewrite Hperm]]].
    rewrite (getRecentSearches_save l q); [|by apply getRecentSearches_saves].
    rewrite take_ge; [done|]. by rewrite Hperm.
Qed.

Lemma C7_recent_searches_witness :
  let l := take 10 (reverse (remove_dups thirteen_saves)) in
  getRecentSearches (saves thirteen_saves ∅) = JArr (JStr <$> l)
  ∧ NoDup l
  ∧ (length l ≤ 10)%nat
  ∧ head l = last thirteen_saves
  ∧ ((10 < length (remove_dups thirteen_saves))%nat → length l = 10%nat)
  ∧ (∀ q, q ∈ l →
       getRecentSearches (saveRecentSearch q (saves thirteen_saves ∅))
       = JArr (JStr <$> moved_to_front q l)
       ∧ head (moved_to_front q l) = Some q
       ∧ moved_to_front q l ≡ₚ l
       ∧ NoDup (moved_to_front q l)).
Proof.
  apply (C7_recent_searches ∅ thirteen_saves). reflexivity.
Defined.

Example thirteen_saves_stored :
  getRecentSearches (saves thirteen_saves ∅)
  = JArr (JStr <$> ["NFLX"; "AMD"; "INTC"; "ORCL"; "IBM"; "AAPL"; "NVDA";
                    "META"; "TSLA"; "AMZN"])
  ∧ getRecentSearches (saveRecentSearch "META" (saves thirteen_saves ∅))
    = JArr (JStr <$> ["META"; "NFLX"; "AMD"; "INTC"; "ORCL"; "IBM"; "AAPL";
                      "NVDA"; "TSLA"; "AMZN"]).
Proof. vm_compute. done. Qed.

(** C10, as stated, fails: a stored text that is valid JSON without being an
    array is returned as it was parsed, here [null]. *)
Lemma C10_stored_null_is_returned :
  getRecentSearches {[ STORAGE_KEYS.RECENT_SEARCHES := Json (JOther "null") ]}
  = JOther "null"
  ∧ ¬ ∃ items,
      getRecentSearches {[ STORAGE_KEYS.RECENT_SEARCHES := Json (JOther "null") ]}
      = JArr items.
Proof.
  assert (getRecentSearches
            {[ STORAGE_KEYS.RECENT_SEARCHES := Json (JOther "null") ]}
          = JOther "null") as H by (by vm_compute).
  split; [done|]. rewrite H. by intros [items ?].
Qed.

(** C10, amended.  [getRecentSearches] never throws: a [SyntaxError] of the
    parse is caught and answered with the empty list.  It returns the empty
    list when the key is absent or the stored text is empty or not valid
    JSON, and otherwise the value the stored text denotes, which is an array
    exactly when the stored text is a JSON array, as every text written by
    [saveRecentSearch] is. *)
Theorem C10_getRecentSearches_total (localStorage : Storage) :
  (localStorage !! STORAGE_KEYS.RECENT_SEARCHES = None →
     getRecentSearches localStorage = JArr [])
  ∧ (∀ raw, localStorage !! STORAGE_KEYS.RECENT_SEARCHES = Some (Garbage raw) →
       getRecentSearches localStorage = JArr [])
  ∧ (∀ v, localStorage !! STORAGE_KEYS.RECENT_SEARCHES = Some (Json v) →
       getRecentSearches localStorage = v)
  ∧ (∀ e, getRecentSearches_try localStorage = inl e →
       getRecentSearches localStorage = JArr [])
  ∧ ((∃ items, getRecentSearches localStorage = JArr items)
     ↔ localStorage !! STORAGE_KEYS.RECENT_SEARCHES = None
       ∨ (∃ raw, localStorage !! STORAGE_KEYS.RECENT_SEARCHES = Some (Garbage raw))
       ∨ (∃ items, localStorage !! STORAGE_KEYS.RECENT_SEARCHES
                   = Some (Json (JArr items)))).
Proof.
  unfold getRecentSearches, getRecentSearches_try.
  split; [by intros ->|]. split; [|split; [by intros v ->|split]].
  - intros raw ->. simpl. by case_bool_decide.
  - by intros e ->.
  - destruct (localStorage !! STORAGE_KEYS.RECENT_SEARCHES) as [[v|raw]|];
      simpl.
    + split.
      * intros [items ->]. right. right. eauto.
      * intros [?|[[? ?]|[items [= ->]]]]; [done|done|eauto].
    + split; [intros _; right; left; eauto|].
      intros _. exists []. by case_bool_decide.
    + split; [by left|eauto].
Qed.

(** ** Properties of the query validator *)

Lemma trimStart_spec (s : JSString) :
  ∃ pre, s = pre ++ trimStart s
         ∧ Forall (λ c, is_whitespace c = true) pre
         ∧ ∀ c, head (trimStart s) = Some c → is_whitespace c = false.
Proof.
  induction s as [|x s (pre & Hs & Hpre & Hhead)].
  - exists []. done.
  - cbn [trimStart]. destruct (is_whitespace x) eqn:Hx.
    + exists (x :: pre). split; [by rewrite Hs at 1|]. split; [|done].
      by constructor.
    + exists []. split; [done|]. split; [done|].
      intros c [= ?]. by subst c.
Qed.

Lemma trimStart_snoc (s : JSString) (c : N) :
  is_whitespace c = false → trimStart (s ++ [c]) = trimStart s ++ [c].
Proof.
  intros Hc. induction s as [|x s IH]; simpl.
  - by rewrite Hc.
  - by destruct (is_whitespace x).
Qed.

Lemma trimEnd_cons (s : JSString) (c : N) :
  is_whitespace c = false → trimEnd (c :: s) = c :: trimEnd s.
Proof.
  intros Hc. unfold trimEnd.
  by rewrite reverse_cons, trimStart_snoc, reverse_snoc.
Qed.

Lemma trimEnd_spec (s : JSString) :
  ∃ post, s = trimEnd s ++ post
          ∧ Forall (λ c, is_whitespace c = true) post
          ∧ ∀ c, last (trimEnd s) = Some c → is_whitespace c = false.
Proof.
  unfold trimEnd.
  destruct (trimStart_spec (reverse s)) as (pre & Hs & Hpre & Hhead).
  exists (reverse pre). split; [|split].
  - rewrite <- reverse_app, <- Hs. by rewrite reverse_involutive.
  - by apply Forall_reverse.
  - intros c Hc. apply Hhead. by rewrite <- last_reverse.
Qed.

(** [trim] removes white space at both ends and nothing else. *)
Lemma trim_spec (s : JSString) :
  (∃ pre post, s = pre ++ trim s ++ post
               ∧ Forall (λ c, is_whitespace c = true) pre
               ∧ Forall (λ c, is_whitespace c = true) post)
  ∧ (∀ c, head (trim s) = Some c → is_whitespace c = false)
  ∧ (∀ c, last (trim s) = Some c → is_whitespace c = false).
Proof.
  unfold trim.
  destruct (trimStart_spec s) as (pre & Hs & Hpre & Hhead).
  destruct (trimEnd_spec (trimStart s)) as (post & Ht & Hpost & Hlast).
  split; [|split; [|done]].
  - exists pre, post. split; [|done]. by rewrite <- Ht.
  - destruct (trimStart s) as [|x t] eqn:Hx; [done|].
    rewrite trimEnd_cons by (by apply Hhead).
    intros c [= ?]. subst c. by apply Hhead.
Qed.

(** C9, as the specification states it, fails: the validator accepts a
    query with two spaces in a row and returns it with both. *)
Lemma C9_inner_whitespace_is_kept :
  validateSearchQuery (code_units " Apple  Inc ") = Valid (code_units "Apple  Inc")
  ∧ trimmed_and_collapsed (code_units " Apple  Inc ") = code_units "Apple Inc"
  ∧ code_units "Apple  Inc" ≠ trimmed_and_collapsed (code_units " Apple  Inc ").
Proof.
  vm_compute. split; [done|]. split; [done|]. intros H. discriminate H.
Qed.

(** C9, amended.  The value of an accepted query is the query with the
    white space at its two ends removed and nothing else changed, inner
    white space included; it has between 2 and 100 code units and neither
    starts nor ends with white space. *)
Theorem C9_validateSearchQuery_value (query value : JSString) :
  validateSearchQuery query = Valid value →
  value = trim query
  ∧ (∃ pre post, query = pre ++ value ++ post
                 ∧ Forall (λ c, is_whitespace c = true) pre
                 ∧ Forall (λ c, is_whitespace c = true) post)
  ∧ (SEARCH_CONFIG.MIN_QUERY_LENGTH ≤ length value
     ≤ SEARCH_CONFIG.MAX_QUERY_LENGTH)%nat
  ∧ (∀ c, head value = Some c → is_whitespace c = false)
  ∧ (∀ c, last value = Some c → is_whitespace c = false)
  ∧ (∀ pattern, pattern ∈ suspiciousPatterns →
       regex_test pattern value = false).
Proof.
  unfold validateSearchQuery.
  case_bool_decide as Hempty; [done|].
  case_bool_decide as Hmin; [done|].
  case_bool_decide as Hmax; [done|].
  destruct (existsb _ suspiciousPatterns) eqn:Hsus; [done|].
  intros [= <-].
  destruct (trim_spec query) as (Hparts & Hhead & Hlast).
  split; [done|]. split; [done|]. split; [lia|].
  split; [done|]. split; [done|].
  intros pattern Hin.
  destruct (regex_test pattern (trim query)) eqn:Ht; [|done].
  assert (existsb (λ p, regex_test p (trim query)) suspiciousPatterns = true)
    as Hex.
  { apply existsb_exists. exists pattern. split; [|done].
    by apply list_elem_of_In. }
  congruence.
Qed.

Lemma C9_validateSearchQuery_value_witness :
  code_units "Apple  Inc" = trim (code_units " Apple  Inc ")
  ∧ (∃ pre post, code_units " Apple  Inc "
                 = pre ++ code_units "Apple  Inc" ++ post
                 ∧ Forall (λ c, is_whitespace c = true) pre
                 ∧ Forall (λ c, is_whitespace c = true) post)
  ∧ (SEARCH_CONFIG.MIN_QUERY_LENGTH ≤ length (code_units "Apple  Inc")
     ≤ SEARCH_CONFIG.MAX_QUERY_LENGTH)%nat
  ∧ (∀ c, head (code_units "Apple  Inc") = Some c → is_whitespace c = false)
  ∧ (∀ c, last (code_units "Apple  Inc") = Some c → is_whitespace c = false)
  ∧ (∀ pattern, pattern ∈ suspiciousPatterns →
       regex_test pattern (code_units "Apple  Inc") = false).
Proof.
  apply (C9_validateSearchQuery_value (code_units " Apple  Inc ")).
  vm_compute. reflexivity.
Defined.

Example validateSearchQuery_rejects :
  validateSearchQuery (code_units "<ScRipt src=x >")
  = Invalid "Query contains invalid characters"
  ∧ validateSearchQuery (code_units "onclick =1")
    = Invalid "Query contains invalid characters"
  ∧ validateSearchQuery (code_units " a ")
    = Invalid "Query must be at least 2 characters"
  ∧ validateSearchQuery [] = Invalid "Search query is required".
Proof. vm_compute. done. Qed.

Example validateAndSanitizeSearch_collapses :
  validateAndSanitizeSearch (code_units " O'Reilly   <Media> ")
  = Valid (code_units "OReilly Media").
Proof. vm_compute. done. Qed.

(** ** More on the error classifier *)

Lemma or_else_nonempty (x : option string) (fallback : string) :
  fallback ≠ "" → or_else x fallback ≠ "".
Proof.
  intros Hf. unfold or_else. destruct x as [s|]; [|done]. by case_decide.
Qed.

Lemma or_else_given (m fallback : string) :
  m ≠ "" → or_else (Some m) fallback = m.
Proof. intros Hm. unfold or_else. by rewrite decide_False. Qed.

(** X1.  The message of a classified error is never empty: it is the
    message of the response body when the body has a non-empty one, for
    every status, and a fallback text otherwise. *)
Theorem transformError_message (error : AxiosError) :
  message (transformError error) ≠ ""
  ∧ (∀ r m, response error = Some r → data_message r = Some m → m ≠ "" →
       message (transformError error) = m)
  ∧ (response error = None →
       message (transformError error)
       = "Network error. Please check your internet connection.").
Proof.
  unfold transformError. conjuncts.
  - destruct (response error) as [r|]; [|done].
    repeat case_decide; simpl; by apply or_else_nonempty.
  - intros r m -> Hm Hne.
    repeat case_decide; simpl; rewrite Hm; by apply or_else_given.
  - by intros ->.
Qed.

(** X2.  On the records the classifier builds, the retry guard holds
    exactly for the answers 400 and 404: network failures, 429, the 5xx
    answers and every other status are retried. *)
Theorem no_retry_transformError (error : AxiosError) :
  no_retry (transformError error) = true
  ↔ ∃ r, response error = Some r ∧ (status r = 400 ∨ status r = 404).
Proof.
  rewrite no_retry_terminal. unfold terminal, original_status.
  rewrite transformError_original. unfold transformError.
  unfold HTTP_STATUS.BAD_REQUEST, HTTP_STATUS.NOT_FOUND,
    HTTP_STATUS.TOO_MANY_REQUESTS.
  destruct (response error) as [r|]; simpl.
  - split.
    + intros H. exists r. split; [done|].
      repeat case_decide; simpl in H; destruct H as [H|[H|H]];
        first [discriminate H | injection H as H; lia | lia].
    + intros (r' & [= <-] & [Hs|Hs]).
      * right. right. by rewrite Hs.
      * right. left. rewrite decide_False by lia. by rewrite decide_True.
  - split.
    + intros [H|[H|H]]; discriminate H.
    + by intros (r & ? & _).
Qed.

(** ** More on the retry loop *)

Lemma backoff_delay_succ (attempt : nat) :
  (1 ≤ attempt)%nat → backoff_delay (S attempt) = 2 * backoff_delay attempt.
Proof.
  intros Ha. unfold backoff_delay.
  replace (Z.of_nat (S attempt) - 1) with (Z.succ (Z.of_nat attempt - 1)) by lia.
  rewrite Z.pow_succ_r by lia. lia.
Qed.

Lemma pow2_pred_succ (k : nat) :
  (1 ≤ k)%nat → 2 ^ Z.of_nat (S k - 1) = 2 * 2 ^ Z.of_nat (k - 1).
Proof.
  intros Hk. replace (Z.of_nat (S k - 1)) with (Z.succ (Z.of_nat (k - 1))) by lia.
  by rewrite Z.pow_succ_r by lia.
Qed.

Section retry_traces.
Context {W : Type} `{!Runtime W} {A : Type}.
Implicit Types (requestFn : W → (ErrorRecord + A) * W) (w : W).

(** What every run of the loop keeps, whatever the request does: it enters
    at [attempt] with exactly the fuel for the attempts left. *)
Lemma retryLoop_trace requestFn maxRetries fuel attempt lastError w :
  (1 ≤ attempt)%nat →
  (attempt + fuel = S maxRetries)%nat →
  ∀ c w' tr,
    retryLoop requestFn maxRetries fuel attempt lastError w = (c, w', tr) →
    (attempts tr ≤ fuel)%nat
    ∧ ((1 ≤ fuel)%nat → (1 ≤ attempts tr)%nat)
    ∧ total_wait tr
      = backoff_delay attempt * (2 ^ Z.of_nat (attempts tr - 1) - 1)
    ∧ (∀ n d, Backoff n d ∈ tr →
         d = backoff_delay n ∧ (attempt ≤ n < maxRetries)%nat)
    ∧ (∀ r, c = Returned r →
         last tr = Some (Request (attempt + attempts tr - 1) None))
    ∧ (∀ e, c = Threw (Some e) → (1 ≤ fuel)%nat →
         last tr = Some (Request (attempt + attempts tr - 1) (Some e)))
    ∧ (c = Threw None → (1 ≤ fuel)%nat → False).
Proof.
  revert attempt lastError w.
  induction fuel as [|fuel IH]; intros attempt lastError w Ha Hsum c w' tr Hrun.
  - injection Hrun as <- <- <-. unfold attempts. simpl.
    conjuncts; try done; try lia.
    intros n d Hin. by apply elem_of_nil in Hin.
  - simpl in Hrun. rewrite decide_True in Hrun by lia.
    destruct (requestFn w) as [[e|r] w1].
    2:{ injection Hrun as <- <- <-. unfold attempts. simpl.
        replace (attempt + 1 - 1)%nat with attempt by lia.
        conjuncts; try done; try lia.
        intros n d Hin. apply list_elem_of_singleton in Hin. done. }
    destruct (no_retry e).
    { injection Hrun as <- <- <-. unfold attempts. simpl.
      replace (attempt + 1 - 1)%nat with attempt by lia.
      conjuncts; try done; try lia.
      - intros n d Hin. apply list_elem_of_singleton in Hin. done.
      - by intros ? [= <-] _. }
    case_decide as Hlt.
    + destruct (retryLoop requestFn maxRetries fuel (S attempt) (Some e)
                  (setTimeout (backoff_delay attempt) w1))
        as [[c2 w2] tr2] eqn:Hrec.
      injection Hrun as <- <- <-.
      destruct (IH (S attempt) (Some e)
                  (setTimeout (backoff_delay attempt) w1))
        with (c := c2) (w' := w2) (tr := tr2)
        as (Hle & Hge & Hwait & Hback & Hret & Hthrew & Hnone);
        [lia|lia|done|].
      specialize (Hge ltac:(lia)).
      assert (attempts (Request attempt (Some e)
                        :: Backoff attempt (backoff_delay attempt) :: tr2)
              = S (attempts tr2)) as Hatt by done.
      rewrite Hatt.
      replace (attempt + S (attempts tr2) - 1)%nat
        with (S attempt + attempts tr2 - 1)%nat by lia.
      conjuncts; try lia.
      * change (total_wait (Request attempt (Some e)
                            :: Backoff attempt (backoff_delay attempt) :: tr2))
          with (backoff_delay attempt + total_wait tr2).
        rewrite Hwait, backoff_delay_succ, pow2_pred_succ by lia. lia.
      * intros n d Hin.
        apply elem_of_cons in Hin as [Hin|Hin]; [done|].
        apply elem_of_cons in Hin as [Hin|Hin].
        -- injection Hin as -> ->. split; [done|lia].
        -- apply Hback in Hin. split; [tauto|lia].
      * intros r Hr. rewrite !last_cons, (Hret r Hr). done.
      * intros e' He' _. rewrite !last_cons, (Hthrew e' He') by lia. done.
      * intros Hc _. apply Hnone; [done|lia].
    + assert (fuel = 0)%nat as -> by lia.
      simpl in Hrun. injection Hrun as <- <- <-. unfold attempts. simpl.
      replace (attempt + 1 - 1)%nat with attempt by lia.
      conjuncts; try done; try lia.
      * intros n d Hin. apply list_elem_of_singleton in Hin. done.
      * by intros ? [= <-] _.
Qed.

(** X3.  Whatever the request function does, [retryRequest] calls it at
    most [maxRetries] times, and at least once when [maxRetries] is
    positive; after [k] calls it has waited [1000 * (2^(k-1) - 1)] ms in
    all, so never more than [1000 * (2^(maxRetries-1) - 1)] ms; each wait
    follows a failed attempt [n < maxRetries] and lasts [1000 * 2^(n-1)] ms;
    the last event of the trace is the call whose result is returned or
    whose error is thrown; [undefined] is thrown only when [maxRetries] is
    0. *)
Theorem retryRequest_trace requestFn (maxRetries : nat) w :
  let '(c, w', tr) := retryRequest requestFn maxRetries w in
  (attempts tr ≤ maxRetries)%nat
  ∧ ((1 ≤ maxRetries)%nat → (1 ≤ attempts tr)%nat)
  ∧ total_wait tr = 1000 * (2 ^ Z.of_nat (attempts tr - 1) - 1)
  ∧ total_wait tr ≤ 1000 * (2 ^ Z.of_nat (maxRetries - 1) - 1)
  ∧ (∀ n d, Backoff n d ∈ tr →
       d = 1000 * 2 ^ (Z.of_nat n - 1) ∧ (1 ≤ n < maxRetries)%nat)
  ∧ (∀ r, c = Returned r → last tr = Some (Request (attempts tr) None))
  ∧ (∀ e, c = Threw (Some e) →
       last tr = Some (Request (attempts tr) (Some e)))
  ∧ (c = Threw None → maxRetries = 0%nat).
Proof.
  destruct (retryRequest requestFn maxRetries w) as [[c w'] tr] eqn:Hrun.
  unfold retryRequest in Hrun.
  destruct (retryLoop_trace requestFn maxRetries maxRetries 1 None w)
    with (c := c) (w' := w') (tr := tr)
    as (Hle & Hge & Hwait & Hback & Hret & Hthrew & Hnone); [lia|lia|done|].
  change (backoff_delay 1) with 1000 in Hwait.
  conjuncts; try done.
  - rewrite Hwait.
    assert (2 ^ Z.of_nat (attempts tr - 1) ≤ 2 ^ Z.of_nat (maxRetries - 1));
      [|lia].
    apply Z.pow_le_mono_r; lia.
  - intros r Hr. rewrite (Hret r Hr). do 3 f_equal.
    destruct (attempts tr) eqn:Hk; [|lia].
    destruct maxRetries; [|lia]. injection Hrun as <- _ _. done.
  - intros e He. destruct maxRetries as [|m].
    + injection Hrun as <- _ _. done.
    + rewrite (Hthrew e He) by lia. do 3 f_equal. lia.
  - intros Hc. destruct maxRetries; [done|]. exfalso. apply Hnone; [done|lia].
Qed.

End retry_traces.

Example retryRequest_500_waits :
  total_wait (retryRequest (always_failing (http_failure 500 ∅)) 3 world0).2
  = 3000.
Proof. vm_compute. reflexivity. Qed.

(** ** More on the cache and the facade *)

(** X4.  Cache entries do not interfere: storing under one key does not
    change what is read under another, a read never adds a key, and a read
    leaves every other key as it was. *)
Theorem cache_keys_independent {V : Type} (cache : gmap string (CacheEntry V))
    (k k' : string) (v : V) (t created ttl now : Z) :
  k ≠ k' →
  (getCache k' ttl now (setCache k v t created cache)).1
  = (getCache k' ttl now cache).1
  ∧ (getCache k ttl now cache).2 !! k' = cache !! k'
  ∧ (getCache k ttl now cache).2 ⊆ cache.
Proof.
  intros Hne. unfold getCache, setCache. conjuncts.
  - rewrite lookup_insert_ne by done.
    by destruct (isValidCacheEntry (cache !! k') ttl now).
  - destruct (isValidCacheEntry (cache !! k) ttl now); simpl; [done|].
    by rewrite lookup_delete_ne.
  - destruct (isValidCacheEntry (cache !! k) ttl now); simpl; [done|].
    apply delete_subseteq.
Qed.

Lemma cache_keys_independent_witness :
  (getCache "b" 1000 10
     (setCache "a" "x" 1000 0 (∅ : gmap string (CacheEntry string)))).1
  = (getCache "b" 1000 10 (∅ : gmap string (CacheEntry string))).1
  ∧ (getCache "a" 1000 10 (∅ : gmap string (CacheEntry string))).2 !! "b"
    = (∅ : gmap string (CacheEntry string)) !! "b"
  ∧ (getCache "a" 1000 10 (∅ : gmap string (CacheEntry string))).2
    ⊆ (∅ : gmap string (CacheEntry string)).
Proof.
  apply (cache_keys_independent ∅ "a" "b" "x" 1000 0 1000 10). done.
Defined.

Section more_facade_properties.
Context {W : Type} `{!Runtime W}.
Variable apiClient_get :
  string → list (string * ParamValue) → W → (ErrorRecord + Response) * W.

Lemma run_op_cached_read (op : ReadOp) (w : W) (cache : Cache) :
  ∃ requestFn,
    run_op apiClient_get op w cache
    = cached_read (op_key op) (op_ttl op) (op_useCache op) requestFn w cache.
Proof. destruct op; eexists; reflexivity. Qed.

Lemma cached_read_hit (cacheKey : string) (ttl : Z)
    (requestFn : W → (ErrorRecord + Response) * W) (w : W) (cache : Cache)
    (entry : CacheEntry Envelope) :
  cache !! cacheKey = Some entry →
  Date_now w - timestamp entry < ttl →
  cached_read cacheKey ttl true requestFn w cache
  = (Returned (entry_data entry), w, cache).
Proof.
  intros Hk Hfresh. unfold cached_read, getCache. rewrite Hk. simpl.
  by rewrite bool_decide_true.
Qed.

(** X5.  A hit makes no request: when the cache holds, under the
    operation's key, an entry younger than the operation's TTL, each of the
    five cached reads returns that entry's envelope and leaves the world
    and the cache as they were, whatever the HTTP client would answer. *)
Theorem cache_hit_makes_no_request (op : ReadOp) (w : W) (cache : Cache)
    (entry : CacheEntry Envelope) :
  op_useCache op = true →
  cache !! op_key op = Some entry →
  Date_now w - timestamp entry < op_ttl op →
  run_op apiClient_get op w cache = (Returned (entry_data entry), w, cache).
Proof.
  intros Huse Hk Hfresh.
  destruct (run_op_cached_read op w cache) as [requestFn ->].
  rewrite Huse. by apply cached_read_hit.
Qed.

(** X6.  A read is served from what the previous one stored: when an
    operation misses the cache and its request comes back with status
    [success], the same operation run again less than the TTL later returns
    the same envelope without a request. *)
Theorem cached_read_twice (op : ReadOp) (w w' : W) (cache cache' : Cache)
    (result : Envelope) :
  op_useCache op = true →
  isValidCacheEntry (cache !! op_key op) (op_ttl op) (Date_now w) = false →
  run_op apiClient_get op w cache = (Returned result, w', cache') →
  env_status result = "success" →
  ∀ w2, Date_now w2 - Date_now w' < op_ttl op →
    run_op apiClient_get op w2 cache' = (Returned result, w2, cache').
Proof.
  intros Huse Hmiss Hrun Hok w2 Hfresh.
  destruct (run_op_cached_read op w cache) as [requestFn Heq].
  rewrite Heq, Huse in Hrun. unfold cached_read, getCache in Hrun.
  rewrite Hmiss in Hrun.
  destruct (retryRequest requestFn API_CONFIG.RETRY_ATTEMPTS w)
    as [[c w1] tr].
  destruct c as [response|e]; [|done].
  injection Hrun as <- <- <-. simpl.
  rewrite bool_decide_true by done.
  match goal with |- run_op _ _ _ ?c = _ =>
    destruct (run_op_cached_read op w2 c) as [requestFn2 ->] end.
  rewrite Huse.
  apply (cached_read_hit _ _ _ _ _
           {| entry_data := resp_data response; timestamp := Date_now w1;
              entry_ttl := op_ttl op |}); [|done].
  unfold setCache. apply lookup_insert_eq.
Qed.

End more_facade_properties.

Lemma cache_hit_makes_no_request_witness :
  run_op failing_client apple_search world0 apple_cache
  = (Returned apple_envelope, world0, apple_cache).
Proof.
  apply (cache_hit_makes_no_request failing_client apple_search world0
           apple_cache
           {| entry_data := apple_envelope; timestamp := 0;
              entry_ttl := CACHE_CONFIG.SEARCH_TTL |}).
  - reflexivity.
  - vm_compute. reflexivity.
  - vm_compute. reflexivity.
Defined.

Lemma cached_read_twice_witness :
  let first := run_op (answering_client apple_envelope) apple_search world0 ∅ in
  run_op (answering_client apple_envelope) apple_search world_2min first.2
  = (Returned apple_envelope, world_2min, first.2).
Proof.
  cbv zeta.
  apply (cached_read_twice (answering_client apple_envelope) apple_search
           world0
           (run_op (answering_client apple_envelope) apple_search world0 ∅).1.2
           ∅).
  - reflexivity.
  - vm_compute. reflexivity.
  - vm_compute. reflexivity.
  - reflexivity.
  - vm_compute. reflexivity.
Defined.

(** ** The cache key *)

Lemma string_compare_trans (c : comparison) (s1 s2 s3 : string) :
  String.compare s1 s2 = c → String.compare s2 s3 = c →
  String.compare s1 s3 = c.
Proof.
  revert s2 s3. induction s1 as [|a1 s1 IH]; intros [|a2 s2] [|a3 s3];
    simpl; try congruence.
  unfold Ascii.compare.
  destruct (N.compare_spec (Ascii.N_of_ascii a1) (Ascii.N_of_ascii a2)) as [E12|L12|G12];
    destruct (N.compare_spec (Ascii.N_of_ascii a2) (Ascii.N_of_ascii a3)) as [E23|L23|G23];
    intros H1 H2; subst; try discriminate.
  - rewrite E12, E23, N.compare_refl. by eapply IH.
  - rewrite E12. by apply N.compare_lt_iff in L23 as ->.
  - rewrite E12. by apply N.compare_gt_iff in G23 as ->.
  - rewrite <- E23. by apply N.compare_lt_iff in L12 as ->.
  - assert (Ascii.N_of_ascii a1 < Ascii.N_of_ascii a3)%N as L by lia.
    by apply N.compare_lt_iff in L as ->.
  - rewrite <- E23. by apply N.compare_gt_iff in G12 as ->.
  - assert (Ascii.N_of_ascii a3 < Ascii.N_of_ascii a1)%N as L by lia.
    by apply N.compare_gt_iff in L as ->.
Qed.

Lemma key_le_trans : Transitive key_le.
Proof.
  intros s1 s2 s3. unfold key_le, String.leb.
  destruct (String.compare s1 s2) eqn:H12; [|
    destruct (String.compare s2 s3) eqn:H23 |]; intros H1 H2; try done.
  - apply String.compare_eq_iff in H12 as ->. done.
  - apply String.compare_eq_iff in H23 as <-. by rewrite H12.
  - by rewrite (string_compare_trans Lt s1 s2 s3).
Qed.

Lemma key_le_antisym : AntiSymm (=) key_le.
Proof. intros s1 s2. apply String.leb_antisym. Qed.

Lemma insert_sorted_Permutation (k : string) (ks : list string) :
  insert_sorted k ks ≡ₚ k :: ks.
Proof.
  induction ks as [|k' ks IH]; [done|]. simpl.
  destruct (String.leb k k'); [done|]. by rewrite IH, Permutation_swap.
Qed.

Lemma insert_sorted_Sorted (k : string) (ks : list string) :
  Sorted key_le ks → Sorted key_le (insert_sorted k ks).
Proof.
  induction ks as [|k' ks IH]; intros Hs; simpl.
  - by repeat constructor.
  - destruct (String.leb k k') eqn:Hle.
    + constructor; [done|]. by constructor.
    + apply Sorted_inv in Hs as [Hs Hhd]. constructor; [by apply IH|].
      assert (key_le k' k) as Hk.
      { destruct (String.leb_total k k') as [H|H]; [congruence|done]. }
      destruct ks as [|k'' ks]; simpl; [by constructor|].
      destruct (String.leb k k''); constructor; [done|].
      by apply HdRel_inv in Hhd.
Qed.

Lemma sort_keys_Permutation (ks : list string) : sort_keys ks ≡ₚ ks.
Proof.
  induction ks as [|k ks IH]; [done|]. unfold sort_keys in *. simpl.
  by rewrite insert_sorted_Permutation, IH.
Qed.

Lemma sort_keys_Sorted (ks : list string) : Sorted key_le (sort_keys ks).
Proof.
  induction ks as [|k ks IH]; [constructor|].
  unfold sort_keys in *. simpl. by apply insert_sorted_Sorted.
Qed.

Lemma sort_keys_perm_eq (ks ks' : list string) :
  ks ≡ₚ ks' → sort_keys ks = sort_keys ks'.
Proof.
  intros Hp.
  apply (@Sorted_unique _ key_le key_le_trans key_le_antisym);
    [apply sort_keys_Sorted..|].
  by rewrite !sort_keys_Permutation.
Qed.

Lemma map_fst_fmap (params : list (string * ParamValue)) :
  map fst params = params.*1.
Proof. induction params as [|p params IH]; [done|]. simpl. by rewrite IH. Qed.

Lemma param_get_elem_of (params : list (string * ParamValue)) k v :
  NoDup params.*1 → (k, v) ∈ params → param_get params k = param_to_string v.
Proof.
  induction params as [|[k' v'] params IH]; intros Hnd Hin.
  - by apply elem_of_nil in Hin.
  - rewrite fmap_cons in Hnd. apply NoDup_cons in Hnd as [Hk' Hnd]. simpl.
    apply elem_of_cons in Hin as [[= -> ->]|Hin].
    + by rewrite decide_True.
    + rewrite decide_False; [by apply IH|].
      intros ->. apply Hk'. apply list_elem_of_fmap. by exists (k, v).
Qed.

(** X7.  The cache key does not depend on the order in which the
    parameters were written: two parameter lists with the same properties,
    no key twice, give the same key for the same URL. *)
Theorem getCacheKey_order (url : string)
    (params params' : list (string * ParamValue)) :
  NoDup (map fst params) → params ≡ₚ params' →
  getCacheKey url params = getCacheKey url params'.
Proof.
  rewrite map_fst_fmap. intros Hnd Hp. unfold getCacheKey.
  rewrite (map_fst_fmap params), (map_fst_fmap params').
  assert (NoDup params'.*1) as Hnd' by (by rewrite <- Hp).
  rewrite <- (sort_keys_perm_eq params.*1 params'.*1) by (by rewrite Hp).
  assert (map (λ key, key +:+ "=" +:+ param_get params key)
              (sort_keys params.*1)
          = map (λ key, key +:+ "=" +:+ param_get params' key)
                (sort_keys params.*1)) as ->; [|done].
  apply map_ext_in. intros key Hkey. do 2 f_equal.
  apply list_elem_of_In in Hkey. rewrite sort_keys_Permutation in Hkey.
  apply list_elem_of_fmap in Hkey as ([k v] & -> & Hin). simpl.
  rewrite (param_get_elem_of params k v) by done.
  rewrite (param_get_elem_of params' k v); [done..|]. by rewrite <- Hp.
Qed.

Lemma getCacheKey_order_witness :
  getCacheKey "search:apple" [("q", PStr "apple"); ("limit", PNum 10)]
  = getCacheKey "search:apple" [("limit", PNum 10); ("q", PStr "apple")].
Proof.
  apply getCacheKey_order.
  - vm_compute. repeat constructor; set_solver.
  - apply Permutation_swap.
Defined.

(** ** The search hook and its debounce *)

(** X8.  One search run on its own, for a query that is long enough: while
    the call is awaited the hook is loading, shows no error and keeps the
    results it had; once the call has settled it is not loading, has
    searched, and shows either the results of a [success] answer and no
    error, or an error message that is not empty and no results.  The
    query and the suggestions are not touched. *)
Theorem performSearch_completed (minQueryLength : nat) (q : string)
    (x : ErrorRecord + Envelope) (st : SearchState) (ls : Storage) :
  q ≠ "" → (minQueryLength ≤ String.length q)%nat →
  let started := performSearch_begin minQueryLength q st in
  let st' := (performSearch_settle q (settles x) started.1 ls).1 in
  (started.2 = true ∧ loading started.1 = true ∧ error started.1 = None
   ∧ results started.1 = results st)
  ∧ (loading st' = false ∧ hasSearched st' = true ∧ results st' = shown x
     ∧ query st' = query st ∧ suggestions st' = suggestions st)
  ∧ (error st' = None ↔ ∃ r, x = inr r ∧ env_status r = "success")
  ∧ (error st' ≠ None → results st' = [])
  ∧ error st' ≠ Some "".
Proof.
  intros Hq Hlen. cbv zeta. unfold performSearch_begin.
  rewrite bool_decide_false by done. rewrite bool_decide_false by lia.
  simpl. split; [done|].
  rewrite results_settle, loading_settle.
  unfold performSearch_settle, shown.
  destruct x as [e|r]; simpl.
  - conjuncts; try done.
    + split; [done|]. by intros (r & ? & _).
    + intros [= H].
      by apply (or_else_nonempty (Some (message e))
                  "Search failed. Please try again.").
  - case_bool_decide as Hs; simpl.
    + destruct (bool_decide (0 < length (searchResults_of r))%nat); simpl;
        conjuncts; try done; split; eauto.
    + conjuncts; try done.
      * split; [done|]. intros (r' & [= <-] & ?). done.
      * intros [= H].
        by apply (or_else_nonempty (env_message r) "Search failed").
Qed.

Lemma performSearch_completed_witness :
  let started :=
    performSearch_begin 2 "TSLA" initialSearchState in
  let st' :=
    (performSearch_settle "TSLA" (settles (inr (success_with ["Tesla, Inc."])))
       started.1 ∅).1 in
  (started.2 = true ∧ loading started.1 = true ∧ error started.1 = None
   ∧ results started.1 = results initialSearchState)
  ∧ (loading st' = false ∧ hasSearched st' = true
     ∧ results st' = shown (inr (success_with ["Tesla, Inc."]))
     ∧ query st' = query initialSearchState
     ∧ suggestions st' = suggestions initialSearchState)
  ∧ (error st' = None
     ↔ ∃ r, @inr ErrorRecord _ (success_with ["Tesla, Inc."]) = inr r
            ∧ env_status r = "success")
  ∧ (error st' ≠ None → results st' = [])
  ∧ error st' ≠ Some "".
Proof.
  apply (performSearch_completed 2 "TSLA"
           (inr (success_with ["Tesla, Inc."])) initialSearchState ∅).
  - done.
  - vm_compute. lia.
Defined.

Lemma timers_run_pending (now due : Z) (value : string) (st : Debounce) :
  handler st = Some (value, due) → now < due → timers_run now st = st.
Proof.
  intros Hh Hlt. unfold timers_run. rewrite Hh. by rewrite decide_False by lia.
Qed.

(** X9.  Of a burst of renders, each following the one before by less
    than the delay and with a new value, only the last reaches the
    debounced value: until the delay has passed since the last render no
    timeout fires and the debounced value stays, and once it has passed
    exactly one timeout has fired, with the last value. *)
Theorem useDebounce_last_wins (delay t0 : Z) (v0 : string)
    (burst : list (Z * string)) (st : Debounce) :
  handler st = Some (v0, t0 + delay) →
  deps st = (v0, delay) →
  rapid delay t0 v0 burst →
  let last_render := default (t0, v0) (last burst) in
  (∀ now, now < last_render.1 + delay →
     timers_run now (keystrokes delay burst st)
     = {| debouncedValue := debouncedValue st;
          deps := (last_render.2, delay);
          handler := Some (last_render.2, last_render.1 + delay);
          fired := fired st |})
  ∧ (∀ now, last_render.1 + delay ≤ now →
       timers_run now (keystrokes delay burst st)
       = {| debouncedValue := last_render.2;
            deps := (last_render.2, delay);
            handler := None;
            fired := fired st ++ [last_render.2] |}).
Proof.
  revert t0 v0 st. induction burst as [|[t v] burst IH];
    intros t0 v0 st Hh Hd Hr; cbv zeta.
  - simpl. unfold timers_run. rewrite Hh. split; intros now Hnow.
    + rewrite decide_False by lia. destruct st; simpl in *. congruence.
    + rewrite decide_True by lia. by rewrite Hd.
  - destruct Hr as (Ht & Hv & Hr). simpl in Ht, Hv, Hr.
    assert (keystrokes delay ((t, v) :: burst) st
            = keystrokes delay burst
                {| debouncedValue := debouncedValue st; deps := (v, delay);
                   handler := Some (v, t + delay); fired := fired st |})
      as ->.
    { unfold keystrokes. simpl.
      rewrite (timers_run_pending t (t0 + delay) v0) by (done || lia).
      unfold useDebounce_render. rewrite Hd.
      rewrite decide_False; [done|]. intros [= ?]. done. }
    replace (default (t0, v0) (last ((t, v) :: burst)))
      with (default (t, v) (last burst))
      by (rewrite last_cons; by destruct (last burst)).
    exact (IH t v
             {| debouncedValue := debouncedValue st; deps := (v, delay);
                handler := Some (v, t + delay); fired := fired st |}
             eq_refl eq_refl Hr).
Qed.

Lemma useDebounce_last_wins_witness :
  (∀ now, now < 250 + 300 →
     timers_run now (keystrokes 300 typing_TSLA (useDebounce_mount "" 300 0))
     = {| debouncedValue := ""; deps := ("TSLA", 300);
          handler := Some ("TSLA", 250 + 300); fired := [] |})
  ∧ (∀ now, 250 + 300 ≤ now →
       timers_run now (keystrokes 300 typing_TSLA (useDebounce_mount "" 300 0))
       = {| debouncedValue := "TSLA"; deps := ("TSLA", 300);
            handler := None; fired := [] ++ ["TSLA"] |}).
Proof.
  apply (useDebounce_last_wins 300 0 "" typing_TSLA (useDebounce_mount "" 300 0)).
  - reflexivity.
  - reflexivity.
  - simpl. repeat split; (lia || discriminate).
Defined.

(** ** More on the validators and the formatters *)

Lemma trimStart_id (s : JSString) :
  (∀ c, head s = Some c → is_whitespace c = false) → trimStart s = s.
Proof.
  destruct s as [|c s]; [done|]. intros H. simpl. by rewrite (H c).
Qed.

Lemma trimEnd_id (s : JSString) :
  (∀ c, last s = Some c → is_whitespace c = false) → trimEnd s = s.
Proof.
  intros H. unfold trimEnd. rewrite trimStart_id.
  - apply reverse_involutive.
  - intros c Hc. apply H. by rewrite <- head_reverse.
Qed.

Lemma trim_id (s : JSString) :
  (∀ c, head s = Some c → is_whitespace c = false) →
  (∀ c, last s = Some c → is_whitespace c = false) →
  trim s = s.
Proof.
  intros Hh Hl. unfold trim. rewrite trimStart_id by done. by apply trimEnd_id.
Qed.

Lemma trim_idemp (s : JSString) : trim (trim s) = trim s.
Proof. destruct (trim_spec s) as (_ & Hh & Hl). by apply trim_id. Qed.

Lemma length_trim (s : JSString) : (length (trim s) ≤ length s)%nat.
Proof.
  destruct (trim_spec s) as ((pre & post & Hs & _) & _).
  rewrite Hs at 2. rewrite !length_app. lia.
Qed.

Lemma whitespace_not_digit (c : N) : is_whitespace c = true → is_digit c = false.
Proof.
  unfold is_whitespace, is_digit. rewrite !orb_true_iff, !bool_decide_eq_true.
  intros H. apply bool_decide_eq_false. lia.
Qed.

Lemma filter_digits_whitespace (s : JSString) :
  Forall (λ c, is_whitespace c = true) s → List.filter is_digit s = [].
Proof.
  induction 1 as [|c s Hc _ IH]; [done|]. simpl.
  by rewrite (whitespace_not_digit c Hc).
Qed.

Lemma filter_digits_trim (s : JSString) :
  List.filter is_digit (trim s) = List.filter is_digit s.
Proof.
  destruct (trim_spec s) as ((pre & post & Hs & Hpre & Hpost) & _).
  rewrite Hs at 2. rewrite !List.filter_app.
  rewrite (filter_digits_whitespace pre), (filter_digits_whitespace post) by done.
  by rewrite app_nil_r.
Qed.

Lemma filter_digits_all (s : JSString) :
  Forall (λ c, is_digit c = true) s → List.filter is_digit s = s.
Proof. induction 1 as [|c s Hc _ IH]; [done|]. simpl. by rewrite Hc, IH. Qed.

Lemma Forall_filter_digits (s : JSString) :
  Forall (λ c, is_digit c = true) (List.filter is_digit s).
Proof.
  induction s as [|c s IH]; [constructor|]. simpl.
  destruct (is_digit c) eqn:Hc; [by constructor|done].
Qed.

(** X10.  [validateCIK] looks at the digits of its input and at nothing
    else: it accepts exactly the inputs with 1 to 10 digits, whatever stands
    between them, and its value is those digits padded with zeros in front
    to 10 digits; validating that value again returns it unchanged. *)
Theorem validateCIK_digits (cik : JSString) :
  let digits := List.filter is_digit cik in
  let value := replicate (10 - length digits) 0x30%N ++ digits in
  if bool_decide (1 ≤ length digits ≤ 10)%nat then
    validateCIK cik = Valid value
    ∧ length value = 10%nat
    ∧ Forall (λ c, is_digit c = true) value
    ∧ validateCIK value = Valid value
  else isValid (validateCIK cik) = false.
Proof.
  cbv zeta.
  assert (∀ s,
            validateCIK s
            = if bool_decide (length (List.filter is_digit s) = 0%nat)
              then if bool_decide (s = []) then Invalid "CIK is required"
                   else Invalid "CIK must contain digits"
              else if bool_decide (10 < length (List.filter is_digit s))%nat
                   then Invalid "CIK cannot be more than 10 digits"
                   else Valid (padStart 10 0x30 (List.filter is_digit s)))
    as Hunfold.
  { intros s. unfold validateCIK. rewrite filter_digits_trim.
    destruct (decide (s = [])) as [->|Hs]; [done|].
    rewrite !(bool_decide_false (s = [])) by done.
    by repeat case_bool_decide. }
  case_bool_decide as Hlen.
  - assert (Forall (λ c, is_digit c = true)
              (replicate (10 - length (List.filter is_digit cik)) 0x30%N
               ++ List.filter is_digit cik)) as Hall.
    { apply Forall_app. split; [|apply Forall_filter_digits].
      by apply Forall_replicate. }
    conjuncts.
    + rewrite Hunfold.
      rewrite bool_decide_false by lia. by rewrite bool_decide_false by lia.
    + rewrite length_app, length_replicate. lia.
    + done.
    + rewrite Hunfold.
      rewrite filter_digits_all by done.
      rewrite length_app, length_replicate.
      rewrite bool_decide_false by lia. rewrite bool_decide_false by lia.
      unfold padStart. rewrite length_app, length_replicate.
      by replace (10 - _)%nat with 0%nat by lia.
  - rewrite Hunfold.
    case_bool_decide; [by case_bool_decide|].
    rewrite bool_decide_true by lia. done.
Qed.

Example validateCIK_examples :
  validateCIK (code_units " CIK-0000320193 ") = Valid (code_units "0000320193")
  ∧ validateCIK (code_units "320193") = Valid (code_units "0000320193")
  ∧ validateCIK (code_units "n/a") = Invalid "CIK must contain digits"
  ∧ validateCIK (code_units "12345678901")
    = Invalid "CIK cannot be more than 10 digits".
Proof. vm_compute. done. Qed.

(** X11.  A value [validateSearchQuery] has accepted is accepted again,
    unchanged. *)
Theorem validateSearchQuery_idempotent (query value : JSString) :
  validateSearchQuery query = Valid value →
  validateSearchQuery value = Valid value.
Proof.
  unfold validateSearchQuery.
  case_bool_decide as Hempty; [done|].
  case_bool_decide as Hmin; [done|].
  case_bool_decide as Hmax; [done|].
  destruct (existsb _ suspiciousPatterns) eqn:Hsus; [done|].
  intros [= <-]. rewrite trim_idemp.
  rewrite bool_decide_false.
  - rewrite bool_decide_false by done. rewrite bool_decide_false by done.
    by rewrite Hsus.
  - intros Hnil. rewrite Hnil in Hmin. unfold SEARCH_CONFIG.MIN_QUERY_LENGTH in Hmin.
    simpl in Hmin. lia.
Qed.

Lemma validateSearchQuery_idempotent_witness :
  validateSearchQuery (code_units "Apple  Inc") = Valid (code_units "Apple  Inc").
Proof.
  apply (validateSearchQuery_idempotent (code_units " Apple  Inc ")).
  vm_compute. reflexivity.
Defined.

Lemma collapse_from_harmless (in_run : bool) (s : JSString) :
  Forall harmless s → Forall harmless (collapse_from in_run s).
Proof.
  intros Hs. revert in_run. induction Hs as [|c s Hc _ IH]; intros in_run.
  - constructor.
  - simpl. destruct (is_whitespace c); [destruct in_run|]; try done.
    + constructor; [done|apply IH].
    + constructor; [done|apply IH].
Qed.

Lemma collapse_from_single_spaced (in_run : bool) (s : JSString) :
  single_spaced in_run (collapse_from in_run s) = true.
Proof.
  revert in_run. induction s as [|c s IH]; intros in_run; [done|]. simpl.
  destruct (is_whitespace c) eqn:Hc.
  - destruct in_run; [apply IH|]. simpl. apply IH.
  - simpl. rewrite Hc. apply IH.
Qed.

Lemma length_collapse_from (in_run : bool) (s : JSString) :
  (length (collapse_from in_run s) ≤ length s)%nat.
Proof.
  revert in_run. induction s as [|c s IH]; intros in_run; [done|]. simpl.
  pose proof (IH true). pose proof (IH false).
  destruct (is_whitespace c); [destruct in_run|]; simpl; lia.
Qed.

Lemma single_spaced_collapse_id (after_ws : bool) (s : JSString) :
  single_spaced after_ws s = true → collapse_from after_ws s = s.
Proof.
  revert after_ws. induction s as [|c s IH]; intros after_ws; [done|]. simpl.
  destruct (is_whitespace c).
  - rewrite !andb_true_iff, bool_decide_eq_true, negb_true_iff.
    intros [[-> ->] Hs]. by rewrite IH.
  - intros Hs. by rewrite IH.
Qed.

Lemma head_collapse_from (s : JSString) (c : N) :
  is_whitespace c = false → ∀ in_run,
    head (collapse_from in_run (c :: s)) = Some c.
Proof. intros Hc in_run. simpl. by rewrite Hc. Qed.

Lemma last_collapse_from (in_run : bool) (s : JSString) (c : N) :
  is_whitespace c = false → last s = Some c →
  last (collapse_from in_run s) = Some c.
Proof.
  intros Hc. revert in_run. induction s as [|x s IH]; intros in_run; [done|].
  destruct s as [|y s].
  - intros [= ->]. simpl. by rewrite Hc.
  - intros Hl. rewrite last_cons_cons in Hl.
    change (collapse_from in_run (x :: y :: s))
      with (if is_whitespace x then
              if in_run then collapse_from true (y :: s)
              else 0x20%N :: collapse_from true (y :: s)
            else x :: collapse_from false (y :: s)).
    destruct (is_whitespace x); [destruct in_run|];
      rewrite ?last_cons, ?IH by done; done.
Qed.

Lemma filter_harmless_id (s : JSString) :
  Forall harmless s →
  List.filter (λ c, negb (is_quote c))
    (List.filter (λ c, negb (is_angle c)) s) = s.
Proof.
  induction 1 as [|c s [Ha Hq] _ IH]; [done|]. simpl.
  rewrite Ha. simpl. by rewrite Hq, IH.
Qed.

Lemma Forall_harmless_filter (s : JSString) :
  Forall harmless
    (List.filter (λ c, negb (is_quote c))
       (List.filter (λ c, negb (is_angle c)) s)).
Proof.
  induction s as [|c s IH]; [constructor|]. simpl.
  destruct (is_angle c) eqn:Ha; simpl; [done|].
  destruct (is_quote c) eqn:Hq; simpl; [done|]. by constructor.
Qed.

Lemma length_filter_le (f : N → bool) (s : JSString) :
  (length (List.filter f s) ≤ length s)%nat.
Proof.
  induction s as [|c s IH]; [done|]. simpl. destruct (f c); simpl; lia.
Qed.

(** X12.  What [sanitizeString] returns holds no angle bracket and no
    quote, every white space in it is a single space standing alone, and it
    is no longer than the input.  On an input without brackets and quotes it
    does what [formatSearchQuery] does. *)
Theorem sanitizeString_clean (str : JSString) :
  Forall harmless (sanitizeString str)
  ∧ single_spaced false (sanitizeString str) = true
  ∧ (length (sanitizeString str) ≤ length str)%nat
  ∧ (Forall harmless str → sanitizeString str = formatSearchQuery str).
Proof.
  unfold sanitizeString, formatSearchQuery, collapse_whitespace.
  case_bool_decide as Hnil; [subst; conjuncts; done|].
  conjuncts.
  - apply collapse_from_harmless, Forall_harmless_filter.
  - apply collapse_from_single_spaced.
  - etrans; [apply length_collapse_from|].
    etrans; [apply length_filter_le|].
    etrans; [apply length_filter_le|]. apply length_trim.
  - intros Hs. rewrite filter_harmless_id; [done|].
    destruct (trim_spec str) as ((pre & post & Heq & _) & _).
    rewrite Heq in Hs. apply Forall_app in Hs as [_ Hs].
    by apply Forall_app in Hs as [Hs _].
Qed.

Example sanitizeString_not_idempotent :
  sanitizeString (code_units "< a") = code_units " a"
  ∧ sanitizeString (code_units " a") = code_units "a".
Proof. vm_compute. done. Qed.

(** X13.  [formatSearchQuery] returns a text without white space at its
    ends in which every white space is a single space standing alone, and
    formatting such a text again changes nothing. *)
Theorem formatSearchQuery_normal (query : JSString) :
  let out := formatSearchQuery query in
  single_spaced false out = true
  ∧ (∀ c, head out = Some c → is_whitespace c = false)
  ∧ (∀ c, last out = Some c → is_whitespace c = false)
  ∧ formatSearchQuery out = out.
Proof.
  cbv zeta.
  assert (single_spaced false (formatSearchQuery query) = true
          ∧ (∀ c, head (formatSearchQuery query) = Some c → is_whitespace c = false)
          ∧ (∀ c, last (formatSearchQuery query) = Some c → is_whitespace c = false))
    as (Hs & Hh & Hl).
  { unfold formatSearchQuery, collapse_whitespace.
    case_bool_decide as Hnil; [done|].
    destruct (trim_spec query) as (_ & Hh & Hl).
    conjuncts.
    - apply collapse_from_single_spaced.
    - destruct (trim query) as [|x t]; [done|].
      rewrite head_collapse_from by (by apply Hh). intros c [= <-]. by apply Hh.
    - destruct (last (trim query)) as [x|] eqn:Hlast.
      + rewrite (last_collapse_from false _ x) by (by (apply Hl || idtac)).
        intros c [= <-]. by apply Hl.
      + apply last_None in Hlast. by rewrite Hlast. }
  conjuncts; try done.
  unfold formatSearchQuery at 1. case_bool_decide as Hnil; [done|].
  rewrite trim_id by done. unfold collapse_whitespace.
  by apply single_spaced_collapse_id.
Qed.

(** X14.  [truncateText] and [formatCompanyName] return a short text as it
    is and cut a longer one to [maxLength - 3] code units followed by three
    dots, so that with [maxLength] at least 3 the result is never longer
    than [maxLength]; with a smaller [maxLength] a longer text, unless
    empty, becomes the three dots alone. *)
Theorem truncateText_length (text : JSString) (maxLength : Z) :
  formatCompanyName text maxLength = truncateText text maxLength
  ∧ (Z.of_nat (length text) ≤ maxLength → truncateText text maxLength = text)
  ∧ (3 ≤ maxLength →
       Z.of_nat (length (truncateText text maxLength)) ≤ maxLength)
  ∧ (3 ≤ maxLength < Z.of_nat (length text) →
       truncateText text maxLength
       = take (Z.to_nat (maxLength - 3)) text ++ code_units "..."
       ∧ Z.of_nat (length (truncateText text maxLength)) = maxLength)
  ∧ (maxLength < 3 → text ≠ [] → maxLength < Z.of_nat (length text) →
       truncateText text maxLength = code_units "...").
Proof.
  unfold formatCompanyName, truncateText, substring0. conjuncts.
  - done.
  - intros Hle. case_bool_decide as Hnil; [done|]. by rewrite bool_decide_true.
  - intros Hmax. case_bool_decide as Hnil; [simpl; lia|].
    case_bool_decide as Hle; [done|].
    rewrite length_app, length_take. simpl. lia.
  - intros [Hmax Hlt].
    rewrite bool_decide_false by (intros ->; simpl in Hlt; lia).
    rewrite bool_decide_false by lia. split; [done|].
    rewrite length_app, length_take. simpl. lia.
  - intros Hmax Hnil Hlt.
    rewrite bool_decide_false by done.
    rewrite bool_decide_false by lia.
    replace (Z.to_nat (maxLength - 3)) with 0%nat by lia. done.
Qed.

(** X15.  [combineValidators] accepts a value exactly when every
    validator accepts it, and then returns the value as it was given, not
    as the validators would have normalised it; otherwise it returns the
    error of the first validator that rejects it. *)
Theorem combineValidators_first_failure
    (validators : list (JSString → Validation)) (value : JSString) :
  (∀ v, combineValidators validators value = Valid v
        ↔ v = value ∧ Forall (λ f, isValid (f value) = true) validators)
  ∧ (∀ e, combineValidators validators value = Invalid e
          ↔ ∃ pre f post,
              validators = pre ++ f :: post
              ∧ Forall (λ g, isValid (g value) = true) pre
              ∧ f value = Invalid e).
Proof.
  induction validators as [|f fs [IHv IHe]]; simpl.
  - split.
    + intros v. split; [by intros [= <-]|by intros [-> _]].
    + intros e. split; [done|]. intros (pre & g & post & Heq & _).
      by destruct pre.
  - destruct (f value) as [v0|e0] eqn:Hf; split.
    + intros v. rewrite IHv. split.
      * intros [-> Hall]. split; [done|]. constructor; [by rewrite Hf|done].
      * intros [-> Hall]. by apply Forall_cons in Hall as [_ ?].
    + intros e. rewrite IHe. split.
      * intros (pre & g & post & -> & Hpre & Hg).
        exists (f :: pre), g, post. split; [done|]. split; [|done].
        constructor; [by rewrite Hf|done].
      * intros (pre & g & post & Heq & Hpre & Hg).
        destruct pre as [|f' pre]; simplify_eq/=; [congruence|].
        apply Forall_cons in Hpre as [_ Hpre]. eauto 6.
    + intros v. split; [done|]. intros [_ Hall].
      apply Forall_cons in Hall as [Hall _]. by rewrite Hf in Hall.
    + intros e. split.
      * intros [= <-]. exists [], f, fs. done.
      * intros (pre & g & post & Heq & Hpre & Hg).
        destruct pre as [|f' pre]; simplify_eq/=; [congruence|].
        apply Forall_cons in Hpre as [Hpre _]. by rewrite Hf in Hpre.
Qed.

Example combineValidators_keeps_input :
  combineValidators [validateSearchQuery] (code_units " Apple ")
  = Valid (code_units " Apple ").
Proof. vm_compute. done. Qed.

Lemma validateArray_loop_items (validator : JSString → Validation) (i : nat)
    (arr : list JSString) :
  ∀ vs, (validateArray_loop validator i arr = (vs, []))
        ↔ Forall2 (λ item v, validator item = Valid v) arr vs.
Proof.
  revert i. induction arr as [|item arr IH]; intros i vs; simpl.
  - split; [intros [= <-]; constructor|by inversion 1].
  - destruct (validateArray_loop validator (S i) arr) as [vs' errs] eqn:Hloop.
    destruct (validator item) as [v|e] eqn:Hv; split.
    + intros [= <- ->]. constructor; [done|]. by apply (IH (S i)).
    + inversion 1 as [|? v' ? vs'' Hv' Hrest]; subst.
      apply (IH (S i)) in Hrest. rewrite Hloop in Hrest. congruence.
    + done.
    + inversion 1; congruence.
Qed.

(** X16.  [validateArray] accepts an array exactly when its length is within
    the bounds given and the validator accepts every item, and its value is
    then the validators' values, one per item and in the items' order; a
    missing array is rejected unless [required] is false, in which case the
    value is the empty array. *)
Theorem validateArray_items (validator : JSString → Validation)
    (arr : list JSString) (minLength maxLength : option nat)
    (required : option bool) :
  (∀ vs,
     validateArray (Some arr) validator minLength maxLength required
     = ValidItems vs
     ↔ below_min minLength (length arr) = false
       ∧ above_max maxLength (length arr) = false
       ∧ Forall2 (λ item v, validator item = Valid v) arr vs)
  ∧ validateArray None validator minLength maxLength required
    = if default true required then InvalidItems "Array is required"
      else ValidItems [].
Proof.
  split; [|done]. intros vs. unfold validateArray.
  destruct (below_min minLength (length arr)); [by split; [|intros [? _]]|].
  destruct (above_max maxLength (length arr)); [by split; [|intros (_ & ? & _)]|].
  destruct (validateArray_loop validator 0 arr) as [vs' errs] eqn:Hloop.
  destruct errs as [|err errs]; simpl.
  - split.
    + intros [= <-]. split; [done|]. split; [done|].
      by apply (validateArray_loop_items validator 0%nat).
    + intros (_ & _ & Hall).
      apply (validateArray_loop_items validator 0%nat) in Hall. congruence.
  - split; [done|]. intros (_ & _ & Hall).
    apply (validateArray_loop_items validator 0%nat) in Hall. congruence.
Qed.

Example validateArray_messages :
  validateArray (Some [code_units "320193"; code_units "n/a"; []])
    validateCIK None None None
  = InvalidItems "Item 2: CIK must contain digits; Item 3: CIK is required".
Proof. vm_compute. done. Qed.

(** ** More on the recent-search store *)

Lemma saveRecentSearch_not_array (query : string) (ls : Storage) (v : JSValue) :
  ls !! STORAGE_KEYS.RECENT_SEARCHES = Some (Json v) →
  (∀ items, v ≠ JArr items) →
  saveRecentSearch query ls = ls.
Proof.
  intros Hk Hv. unfold saveRecentSearch, saveRecentSearch_try.
  unfold getRecentSearches, getRecentSearches_try. rewrite Hk. simpl.
  destruct v as [s|items|text]; simpl; [done| |done]. by destruct (Hv items).
Qed.

(** X17.  Saving never repairs a store whose text is valid JSON without
    being an array: each save is dropped and the store stays as it is.  A
    stored text that does not parse is replaced by the list of the saved
    query alone, and so is whatever was stored once [clearRecentSearches]
    has run. *)
Theorem saveRecentSearch_on_bad_store (query : string) (ls : Storage) :
  (∀ v, ls !! STORAGE_KEYS.RECENT_SEARCHES = Some (Json v) →
        (∀ items, v ≠ JArr items) →
        ∀ qs, saves qs ls = ls ∧ getRecentSearches (saves qs ls) = v)
  ∧ (∀ raw, ls !! STORAGE_KEYS.RECENT_SEARCHES = Some (Garbage raw) →
       getRecentSearches (saveRecentSearch query ls) = JArr [JStr query])
  ∧ getRecentSearches (clearRecentSearches ls) = JArr []
  ∧ getRecentSearches (saveRecentSearch query (clearRecentSearches ls))
    = JArr [JStr query].
Proof.
  conjuncts.
  - intros v Hk Hv qs.
    assert (saves qs ls = ls) as ->.
    { unfold saves. induction qs as [|q qs IH] using rev_ind; [done|].
      rewrite foldl_snoc, IH. by apply (saveRecentSearch_not_array q ls v). }
    split; [done|]. unfold getRecentSearches, getRecentSearches_try.
    by rewrite Hk.
  - intros raw Hk.
    assert (getRecentSearches ls = JArr (JStr <$> [])) as Hget.
    { unfold getRecentSearches, getRecentSearches_try. rewrite Hk. simpl.
      by case_bool_decide. }
    by rewrite (getRecentSearches_save [] query ls Hget).
  - unfold getRecentSearches, getRecentSearches_try, clearRecentSearches.
    by rewrite lookup_delete_eq.
  - assert (getRecentSearches (clearRecentSearches ls) = JArr (JStr <$> []))
      as Hget.
    { unfold getRecentSearches, getRecentSearches_try, clearRecentSearches.
      by rewrite lookup_delete_eq. }
    by rewrite (getRecentSearches_save [] query _ Hget).
Qed.





(** ** The facade without the cache *)

Section uncached_reads.
Context {W : Type} `{!Runtime W}.
Variable apiClient_get :
  string → list (string * ParamValue) → W → (ErrorRecord + Response) * W.

(** X19.  With [useCache: false] a read neither looks into the cache nor
    writes to it: the cache after the operation is the cache before it,
    whatever the request answers, and a fresh entry under the operation's
    key does not keep the request from being made: the outcome is that of
    the request run through [retryRequest]. *)
Theorem uncached_read_bypasses_cache (op : ReadOp) (w : W) (cache : Cache) :
  op_useCache op = false →
  (run_op apiClient_get op w cache).2 = cache
  ∧ (run_op apiClient_get op w cache).1
    = (run_op apiClient_get op w ∅).1.
Proof.
  intros Huse.
  assert (∀ requestFn c,
            cached_read (op_key op) (op_ttl op) false requestFn w c
            = (let '(r, w1, _) :=
                 retryRequest requestFn API_CONFIG.RETRY_ATTEMPTS w in
               (match r with
                | Returned response => Returned (resp_data response)
                | Threw e => Threw e
                end, w1, c))) as Hread.
  { intros requestFn c. unfold cached_read.
    destruct (retryRequest requestFn API_CONFIG.RETRY_ATTEMPTS w) as [[r w1] tr].
    by destruct r. }
  destruct op; simpl in Huse |- *;
    unfold searchCompanies, lookupCompany, getCompanyByTicker, getStockQuote,
      getCompanyFilings;
    rewrite Huse;
    match goal with
    | |- context [cached_read ?k ?t false ?f w cache] =>
        pose proof (Hread f cache) as H1; pose proof (Hread f ∅) as H2;
        simpl in H1, H2; rewrite H1, H2;
        by destruct (retryRequest f API_CONFIG.RETRY_ATTEMPTS w) as [[? ?] ?]
    end.
Qed.

End uncached_reads.

Lemma uncached_read_bypasses_cache_witness :
  (run_op (answering_client apple_envelope) apple_search_uncached world0
     apple_cache).2 = apple_cache
  ∧ (run_op (answering_client apple_envelope) apple_search_uncached world0
       apple_cache).1
    = (run_op (answering_client apple_envelope) apple_search_uncached world0
         ∅).1.
Proof.
  apply (uncached_read_bypasses_cache (answering_client apple_envelope)
           apple_search_uncached world0 apple_cache).
  reflexivity.
Defined.
